(** * pyrpl [hardware_modules/pid.py]: register codec and PID transfer function

    A shallow embedding of the [Pid] hardware module: the integrator-value
    attribute [IValAttribute], the register descriptors declared in the class
    body, and [Pid.transfer_function].

    Modelling conventions.
    - Python floats that hold finite values are real numbers; arithmetic on
      finite values is exact (no rounding error, no overflow).  The IEEE-754
      special values that numpy produces on a division by zero are kept
      ([float64] below), so the behaviour at a zero frequency is visible.
    - The hardware bus is a store of registers together with the trace of the
      accesses made so far; code that touches it lives in a state-and-exception
      monad. *)

From Stdlib Require Import Reals Lra Lia ZArith List Bool Permutation.
Import ListNotations.

Local Open Scope R_scope.

(** ** Exceptions, bus and the monad of bus-accessing code *)

Inductive exn : Set :=
| RangeError
| ZeroDivisionError.

Inductive result (A : Type) : Type :=
| Ok (a : A)
| Raise (e : exn).
Arguments Ok {A} a.
Arguments Raise {A} e.

Inductive bus_event : Set :=
| BusRead (addr : Z)
| BusWrite (addr : Z) (value : Z).

Record bus : Type := mkBus {
  regs : Z -> Z;              (* register contents, by address *)
  trace : list bus_event      (* accesses so far, oldest first *)
}.

Definition M (A : Type) : Type := bus -> result A * bus.

Definition ret {A} (a : A) : M A := fun b => (Ok a, b).

Definition raise {A} (e : exn) : M A := fun b => (Raise e, b).

Definition bind {A B} (m : M A) (k : A -> M B) : M B :=
  fun b => match m b with
           | (Ok a, b') => k a b'
           | (Raise e, b') => (Raise e, b')
           end.

Definition lift {A} (r : result A) : M A := fun b => (r, b).

Declare Scope bus_scope.
Delimit Scope bus_scope with bus.
Notation "x <- m ;; k" := (bind m (fun x => k))
  (at level 100, m at next level, right associativity) : bus_scope.
Notation "m ;;; k" := (bind m (fun _ => k))
  (at level 100, right associativity) : bus_scope.
Local Open Scope bus_scope.

Definition is_write (e : bus_event) : bool :=
  match e with BusWrite _ _ => true | BusRead _ => false end.

(** Modelled from the spec: the bus collaborator ([_read] and [_write] of the
    parent module are not among the sources).  The spec gives it the interface
    [read(address) -> integer] and [write(address, integer)]; a read returns
    the register's current content and a write replaces it.  Each access is
    appended to the trace. *)
Definition _read (addr : Z) : M Z :=
  fun b => (Ok (regs b addr), mkBus (regs b) (trace b ++ [BusRead addr])).

Definition _write (addr : Z) (v : Z) : M unit :=
  fun b => (Ok tt,
            mkBus (fun a => if Z.eqb a addr then v else regs b a)
                  (trace b ++ [BusWrite addr v])).

(** ** Python's [round] *)

(** [round] returns the nearest integer; the two language versions differ on
    ties (Python 3 rounds them to the even neighbour, Python 2 away from
    zero).  Both are covered. *)
Inductive rounding : Set := HalfEven | HalfAway.

Definition round_half_even (x : R) : Z :=
  let n := Int_part x in
  let d := frac_part x in
  if Rlt_dec d (1 / 2) then n
  else if Rlt_dec (1 / 2) d then (n + 1)%Z
  else if Z.even n then n else (n + 1)%Z.

Definition round_half_away (x : R) : Z :=
  if Rle_dec 0 x then Int_part (x + 1 / 2)
  else (- Int_part (- x + 1 / 2))%Z.

Definition py_round (m : rounding) (x : R) : Z :=
  match m with
  | HalfEven => round_half_even x
  | HalfAway => round_half_away x
  end.

(** ** Two's complement register words *)

(** The signed range of a [bitlength]-bit register. *)
Definition fits (bitlength : Z) (v : Z) : bool :=
  ((- 2 ^ (bitlength - 1) <=? v) && (v <? 2 ^ (bitlength - 1)))%Z.

(** Modelled from the spec: [_from_pyint] (a helper of the parent module that
    is not among the sources) turns a Python integer into the register word
    of the given bit length.  The spec requires the rounded value to be
    checked against the two's-complement range of the bit width and the write
    to fail with [RangeError] when it does not fit, never to wrap. *)
Definition _from_pyint (v : Z) (bitlength : Z) : result Z :=
  if fits bitlength v then Ok (Z.land v (Z.ones bitlength))
  else Raise RangeError.

(** Modelled from the spec: [_to_pyint] (same missing helper module) reads a
    register word as the two's-complement integer of the given bit length,
    the spec's "raw integer constrained to [-2^(w-1), 2^(w-1)-1]". *)
Definition _to_pyint (v : Z) (bitlength : Z) : Z :=
  let u := Z.land v (Z.ones bitlength) in
  if Z.testbit u (bitlength - 1) then (u - 2 ^ bitlength)%Z else u.

(** ** Register descriptors and the fixed-point codec *)

(** The keyword arguments of [FloatRegister(address, bits=, norm=, invert=)],
    with the optional value bounds of the spec's parameter descriptor. *)
Record FloatRegister : Type := mkFloatRegister {
  address : Z;
  bits : Z;
  norm : R;
  invert : bool;
  min : option R;
  max : option R
}.

Module FixedPointCodec.

(** Modelled from the spec: [pyrpl.attributes.FloatRegister] is imported but
    is not among the sources.  Section 4.1 of the spec:
    [raw = round(value * normalization_factor)], negated first if [invert],
    then checked against the two's-complement range for [bit_width];
    [RangeError] if the rounded value does not fit. *)
Definition encode (m : rounding) (d : FloatRegister) (value : R) : result Z :=
  let value := if invert d then - value else value in
  let raw := py_round m (value * norm d) in
  if fits (bits d) raw then Ok raw else Raise RangeError.

(** Modelled from the spec (same missing class):
    [value = (invert ? -raw : raw) / normalization_factor]. *)
Definition decode (d : FloatRegister) (raw : Z) : R :=
  IZR (if invert d then (- raw)%Z else raw) / norm d.

End FixedPointCodec.

Module RegisterParameter.

Definition below (bound : option R) (v : R) : bool :=
  match bound with
  | None => true
  | Some hi => if Rle_dec v hi then true else false
  end.

Definition above (bound : option R) (v : R) : bool :=
  match bound with
  | None => true
  | Some lo => if Rle_dec lo v then true else false
  end.

(** Modelled from the spec (the descriptor protocol of the missing
    [FloatRegister] class), section 4.2: one bus read at [address], decoded
    through the codec; no caching. *)
Definition get (d : FloatRegister) : M R :=
  r <- _read (address d) ;;
  ret (FixedPointCodec.decode d (_to_pyint r (bits d))).

(** Modelled from the spec (same missing class), section 4.2: [RangeError]
    if the value is outside [[min, max]]; otherwise the value is encoded and
    the register word is written, one bus write. *)
Definition set (m : rounding) (d : FloatRegister) (value : R) : M unit :=
  if above (min d) value && below (max d) value then
    raw <- lift (FixedPointCodec.encode m d value) ;;
    w <- lift (_from_pyint raw (bits d)) ;;
    _write (address d) w
  else raise RangeError.

End RegisterParameter.

(** ** [class IValAttribute(FloatAttribute)] *)

Module IValAttribute.

(** [float(instance._to_pyint(instance._read(0x100), bitlength=16)) / 2 ** 13] *)
Definition get_value : M R :=
  r <- _read 0x100 ;;
  ret (IZR (_to_pyint r 16) / 2 ^ 13).

(** [instance._write(0x100,
       instance._from_pyint(int(round(value * 2 ** 13)), bitlength=16))] *)
Definition set_value (m : rounding) (value : R) : M unit :=
  w <- lift (_from_pyint (py_round m (value * 2 ^ 13)) 16) ;;
  _write 0x100 w.

End IValAttribute.

(** ** IEEE-754 values and numpy's complex arithmetic *)

(** A double: a finite value or one of the special values.  Zeros carry no
    sign; the only divisions by zero that the module performs are by a
    positive zero (see [cdiv]). *)
Inductive float64 : Type :=
| Fin (x : R)
| PInf
| NInf
| NaN.

Definition inf (negative : bool) : float64 := if negative then NInf else PInf.

(** The infinity of the given sign scaled by the finite factor [x]. *)
Definition scale_inf (x : R) (negative : bool) : float64 :=
  if Req_dec_T x 0 then NaN
  else if Rlt_dec 0 x then inf negative else inf (negb negative).

Definition fneg (a : float64) : float64 :=
  match a with
  | Fin x => Fin (- x)
  | PInf => NInf
  | NInf => PInf
  | NaN => NaN
  end.

Definition fabs (a : float64) : float64 :=
  match a with
  | Fin x => Fin (Rabs x)
  | PInf | NInf => PInf
  | NaN => NaN
  end.

Definition fadd (a b : float64) : float64 :=
  match a, b with
  | NaN, _ | _, NaN => NaN
  | Fin x, Fin y => Fin (x + y)
  | PInf, NInf | NInf, PInf => NaN
  | PInf, _ | _, PInf => PInf
  | NInf, _ | _, NInf => NInf
  end.

Definition fsub (a b : float64) : float64 := fadd a (fneg b).

Definition fmul (a b : float64) : float64 :=
  match a, b with
  | NaN, _ | _, NaN => NaN
  | Fin x, Fin y => Fin (x * y)
  | Fin x, PInf | PInf, Fin x => scale_inf x false
  | Fin x, NInf | NInf, Fin x => scale_inf x true
  | PInf, PInf | NInf, NInf => PInf
  | PInf, NInf | NInf, PInf => NInf
  end.

Definition fdiv (a b : float64) : float64 :=
  match a, b with
  | NaN, _ | _, NaN => NaN
  | Fin x, Fin y =>
      if Req_dec_T y 0 then
        if Req_dec_T x 0 then NaN
        else if Rlt_dec 0 x then PInf else NInf
      else Fin (x / y)
  | Fin _, (PInf | NInf) => Fin 0
  | PInf, Fin y => if Rle_dec 0 y then PInf else NInf
  | NInf, Fin y => if Rle_dec 0 y then NInf else PInf
  | (PInf | NInf), (PInf | NInf) => NaN
  end.

(** [a >= b]; false as soon as one side is NaN. *)
Definition fge (a b : float64) : bool :=
  match a, b with
  | NaN, _ | _, NaN => false
  | Fin x, Fin y => if Rle_dec y x then true else false
  | PInf, _ => true
  | _, NInf => true
  | _, _ => false
  end.

(** [a == 0] *)
Definition fis_zero (a : float64) : bool :=
  match a with
  | Fin x => if Req_dec_T x 0 then true else false
  | _ => false
  end.

Record complex128 : Type := mkC { re : float64; im : float64 }.

(** A real scalar promoted to a complex operand. *)
Definition of_float (x : R) : complex128 := mkC (Fin x) (Fin 0).

(** The literal [1j], and [-1j]. *)
Definition j1 : complex128 := mkC (Fin 0) (Fin 1).
Definition neg_j1 : complex128 := mkC (Fin 0) (Fin (-1)).

Definition cadd (a b : complex128) : complex128 :=
  mkC (fadd (re a) (re b)) (fadd (im a) (im b)).

Definition cmul (a b : complex128) : complex128 :=
  mkC (fsub (fmul (re a) (re b)) (fmul (im a) (im b)))
      (fadd (fmul (re a) (im b)) (fmul (im a) (re b))).

(** numpy's complex division loop (Smith's method, with its special case for
    a zero divisor, which divides both components by [|0|]). *)
Definition cdiv (a b : complex128) : complex128 :=
  let in2r_abs := fabs (re b) in
  let in2i_abs := fabs (im b) in
  if fge in2r_abs in2i_abs then
    if fis_zero in2r_abs && fis_zero in2i_abs then
      mkC (fdiv (re a) in2r_abs) (fdiv (im a) in2r_abs)
    else
      let rat := fdiv (im b) (re b) in
      let scl := fdiv (Fin 1) (fadd (re b) (fmul (im b) rat)) in
      mkC (fmul (fadd (re a) (fmul (im a) rat)) scl)
          (fmul (fsub (im a) (fmul (re a) rat)) scl)
  else
    let rat := fdiv (re b) (im b) in
    let scl := fdiv (Fin 1) (fadd (im b) (fmul (re b) rat)) in
    mkC (fmul (fadd (fmul (re a) rat) (im a)) scl)
        (fmul (fsub (fmul (im a) rat) (re a)) scl).

(** [np.exp] on a complex sample.  Every argument the module passes is finite
    ([transfer_function_exp_args_finite] below); on the other arguments this
    definition gives NaN, a value that no claim relies on. *)
Definition cexp (a : complex128) : complex128 :=
  match re a, im a with
  | Fin x, Fin y => mkC (Fin (exp x * cos y)) (Fin (exp x * sin y))
  | _, _ => mkC NaN NaN
  end.

(** numpy arrays of complex samples, with element-wise operations and
    broadcasting of scalars. *)
Definition ndarray : Type := list complex128.

(** [np.array(frequencies, dtype=np.complex)] *)
Definition np_array (frequencies : list R) : ndarray := map of_float frequencies.

(** [a op s] and [s op a] with a scalar [s]; [a op b] element by element. *)
Definition np_right (op : complex128 -> complex128 -> complex128)
  (a : ndarray) (s : complex128) : ndarray := map (fun x => op x s) a.

Definition np_left (op : complex128 -> complex128 -> complex128)
  (s : complex128) (a : ndarray) : ndarray := map (fun x => op s x) a.

Definition np_zip (op : complex128 -> complex128 -> complex128)
  (a b : ndarray) : ndarray := map (fun xy => op (fst xy) (snd xy)) (combine a b).

Definition np_exp (a : ndarray) : ndarray := map cexp a.

(** Python's [x / y] on floats. *)
Definition py_truediv (x y : R) : result R :=
  if Req_dec_T y 0 then Raise ZeroDivisionError else Ok (x / y).

(** ** [class Pid(FilterModule)] *)

Module Pid.

Definition _delay : Z := 3.
Definition _PSR : nat := 12.
Definition _ISR : nat := 32.
Definition _DSR : nat := 10.
Definition _GAINBITS : Z := 24.

(** The literal [8e-9], the clock period in seconds. *)
Definition T8ns : R := 8 / 10 ^ 9.

(** [ival = IValAttribute(min=-4, max=4, increment= 8. / 2**16)] *)
Definition ival_min : R := -4.
Definition ival_max : R := 4.
Definition ival_increment : R := 8 / 2 ^ 16.

Definition setpoint : FloatRegister :=
  mkFloatRegister 0x104 14 (2 ^ 13) false None None.
Definition min_voltage : FloatRegister :=
  mkFloatRegister 0x124 14 (2 ^ 13) false None None.
Definition max_voltage : FloatRegister :=
  mkFloatRegister 0x128 14 (2 ^ 13) false None None.
Definition p : FloatRegister :=
  mkFloatRegister 0x108 _GAINBITS (2 ^ _PSR) false None None.
Definition i : FloatRegister :=
  mkFloatRegister 0x10C _GAINBITS (2 ^ _ISR * 2 * PI * T8ns) false None None.
Definition d : FloatRegister :=
  mkFloatRegister 0x110 _GAINBITS (2 ^ _DSR / (2 * PI * T8ns)) true None None.
(** [1.5625] is the source's empirical constant. *)
Definition normalization_i : FloatRegister :=
  mkFloatRegister 0x10C _GAINBITS
    (2 ^ _ISR * 2 * PI * T8ns / 2 ^ 13 / (15625 / 10000)) false None None.
Definition normalization_inputoffset : FloatRegister :=
  mkFloatRegister 0x110 (14 + Z.of_nat _DSR) (2 ^ (13 + _DSR)) false None None.

(** The attributes the method takes from the parent classes, which are not
    among the sources: the filter coefficients [self.inputfilter] and the
    clock correction [self._frequency_correction], as the values they have
    during the call. *)
Record self : Type := mkSelf {
  inputfilter : list R;
  _frequency_correction : R
}.

(** The first statement: [self.i / (frequencies*1j) * np.exp(-1j * 8e-9 *
    self._frequency_correction * frequencies * 2 * np.pi)], where [gain_i]
    is the value read from [self.i]. *)
Definition integral_exponent (c : R) (frequencies : ndarray) : ndarray :=
  np_right cmul
    (np_right cmul
       (np_left cmul (cmul (cmul neg_j1 (of_float T8ns)) (of_float c))
          frequencies)
       (of_float 2))
    (of_float PI).

Definition integral_term (gain_i c : R) (frequencies : ndarray) : ndarray :=
  np_zip cmul
    (np_left cdiv (of_float gain_i) (np_right cmul frequencies j1))
    (np_exp (integral_exponent c frequencies)).

(** One turn of [for f in self.inputfilter:], on the loop state
    [(tf, module_delay)]. *)
Definition filter_step (frequencies : ndarray) (st : ndarray * Z) (f : R)
  : ndarray * Z :=
  let (tf, module_delay) := st in
  if Req_dec_T f 0 then st
  else if Rlt_dec 0 f then
    (np_zip cdiv tf
       (np_left cadd (of_float 1)
          (np_right cdiv (np_left cmul j1 frequencies) (of_float f))),
     (module_delay + 2)%Z)
  else if Rlt_dec f 0 then
    (np_zip cdiv tf
       (np_left cadd (of_float 1)
          (np_left cdiv (cmul j1 (of_float f)) frequencies)),
     (module_delay + 1)%Z)
  else st.

(** [np.exp(-1j * delay * frequencies * 2 * np.pi)] *)
Definition delay_exponent (delay : R) (frequencies : ndarray) : ndarray :=
  np_right cmul
    (np_right cmul
       (np_left cmul (cmul neg_j1 (of_float delay)) frequencies)
       (of_float 2))
    (of_float PI).

Definition transfer_function (s : self) (frequencies : list R)
  (extradelay : R) : M ndarray :=
  let module_delay := _delay in
  let frequencies := np_array frequencies in
  gain_i <- RegisterParameter.get i ;;
  let tf := integral_term gain_i (_frequency_correction s) frequencies in
  gain_p <- RegisterParameter.get p ;;
  let tf := np_right cadd tf (of_float gain_p) in
  let (tf, module_delay) :=
    fold_left (filter_step frequencies) (inputfilter s) (tf, module_delay) in
  q <- lift (py_truediv (IZR module_delay * T8ns) (_frequency_correction s)) ;;
  let delay := q + extradelay in
  ret (np_zip cmul tf (np_exp (delay_exponent delay frequencies))).

End Pid.

(** ** Running bus code *)

Definition outcome {A} (m : M A) (b : bus) : result A := fst (m b).
Definition after {A} (m : M A) (b : bus) : bus := snd (m b).

(** The accesses a computation adds to the trace of [b]. *)
Definition performed {A} (m : M A) (b : bus) : list bus_event :=
  skipn (length (trace b)) (trace (after m b)).

(** ** The codec on representable values *)

(** The value as the register sees it: negated when the descriptor inverts. *)
Definition signed_value (d : FloatRegister) (v : R) : R :=
  if invert d then - v else v.

(** [v] lies in the range the register can represent: scaled by the
    normalization it is between the least and the greatest raw integer of the
    bit width. *)
Definition representable (d : FloatRegister) (v : R) : Prop :=
  IZR (- 2 ^ (bits d - 1)) <= signed_value d v * norm d
  <= IZR (2 ^ (bits d - 1) - 1).

Definition unbounded (d : FloatRegister) : Prop := min d = None /\ max d = None.

(** ** Aliased descriptors *)

(** The pairs of public parameters that the class body binds to one
    address. *)
Definition alias_pairs : list (FloatRegister * FloatRegister) :=
  [ (Pid.i, Pid.normalization_i);
    (Pid.normalization_i, Pid.i);
    (Pid.d, Pid.normalization_inputoffset);
    (Pid.normalization_inputoffset, Pid.d) ].

(** ** Exact complex numbers *)

(** The mathematical complex numbers, in which the closed forms of the
    transfer function are stated. *)
Module Cx.

Definition C : Type := (R * R)%type.

Definition of_R (x : R) : C := (x, 0).
Definition J : C := (0, 1).
Definition one : C := (1, 0).

Definition add (a b : C) : C := (fst a + fst b, snd a + snd b).
Definition opp (a : C) : C := (- fst a, - snd a).
Definition mul (a b : C) : C :=
  (fst a * fst b - snd a * snd b, fst a * snd b + snd a * fst b).
Definition norm2 (a : C) : R := fst a * fst a + snd a * snd a.
Definition div (a b : C) : C :=
  ((fst a * fst b + snd a * snd b) / norm2 b,
   (snd a * fst b - fst a * snd b) / norm2 b).
Definition exp (a : C) : C :=
  (Rtrigo_def.exp (fst a) * cos (snd a), Rtrigo_def.exp (fst a) * sin (snd a)).
Definition modulus (a : C) : R := sqrt (norm2 a).
(** The number of magnitude [r] and phase [phi]. *)
Definition polar (r phi : R) : C := (r * cos phi, r * sin phi).

End Cx.

(** A complex number as a finite sample. *)
Definition cfin (z : Cx.C) : complex128 := mkC (Fin (fst z)) (Fin (snd z)).

Definition cnan : complex128 := mkC NaN NaN.

(** ** The transfer function, sample by sample *)

(** The array operations act element by element, so the array the method
    returns is the image of the frequency array under a function of one
    sample.  The functions below are the element-wise readings of the
    statements of [Pid.transfer_function]. *)

Definition exponent_sample (k : complex128) (w : complex128) : complex128 :=
  cmul (cmul (cmul k w) (of_float 2)) (of_float PI).

Definition integral_sample (gain_i c : R) (w : complex128) : complex128 :=
  cmul (cdiv (of_float gain_i) (cmul w j1))
       (cexp (exponent_sample
                (cmul (cmul neg_j1 (of_float Pid.T8ns)) (of_float c)) w)).

Definition filter_sample (w : complex128) (z : complex128) (f : R)
  : complex128 :=
  if Req_dec_T f 0 then z
  else if Rlt_dec 0 f then
    cdiv z (cadd (of_float 1) (cdiv (cmul j1 w) (of_float f)))
  else if Rlt_dec f 0 then
    cdiv z (cadd (of_float 1) (cdiv (cmul j1 (of_float f)) w))
  else z.

Definition filter_delay (module_delay : Z) (f : R) : Z :=
  if Req_dec_T f 0 then module_delay
  else if Rlt_dec 0 f then (module_delay + 2)%Z
  else if Rlt_dec f 0 then (module_delay + 1)%Z
  else module_delay.

Definition delay_sample (delay : R) (w : complex128) : complex128 :=
  cexp (exponent_sample (cmul neg_j1 (of_float delay)) w).

(** The response before the delay factor: integral branch, proportional
    branch, then the filter stages in slot order. *)
Definition branch_sample (gain_p gain_i c : R) (filters : list R)
  (w : complex128) : complex128 :=
  fold_left (filter_sample w) filters
    (cadd (integral_sample gain_i c w) (of_float gain_p)).

Definition tf_sample (gain_p gain_i c : R) (filters : list R) (delay : R)
  (w : complex128) : complex128 :=
  cmul (branch_sample gain_p gain_i c filters w) (delay_sample delay w).

(** The number of extra delay cycles of a filter configuration, as the spec
    words it: two per low-pass stage, one per high-pass stage, none for a
    bypassed slot. *)
Fixpoint extra_delay_cycles (filters : list R) : Z :=
  match filters with
  | [] => 0
  | f :: rest =>
      ((if Rlt_dec 0 f then 2 else if Rlt_dec f 0 then 1 else 0)
       + extra_delay_cycles rest)%Z
  end.

(** The value a [get] of descriptor [d] returns on bus [b]. *)
Definition gain (d : FloatRegister) (b : bus) : R :=
  FixedPointCodec.decode d (_to_pyint (regs b (address d)) (bits d)).

(** The total delay in seconds that the method applies. *)
Definition total_delay (s : Pid.self) (extradelay : R) : R :=
  IZR (Pid._delay + extra_delay_cycles (Pid.inputfilter s)) * Pid.T8ns
  / Pid._frequency_correction s + extradelay.

(** ** Closed forms on finite samples *)

(** The integral branch in closed form: [i / (j f) * exp(-j 2 pi f T c)]. *)
Definition integral_closed (gain_i c f : R) : Cx.C :=
  Cx.mul (Cx.div (Cx.of_R gain_i) (Cx.mul Cx.J (Cx.of_R f)))
         (Cx.exp (Cx.mul (Cx.opp Cx.J) (Cx.of_R (2 * PI * f * (Pid.T8ns * c))))).

(** The integral branch as the spec words it, with [2 pi] in the divisor:
    [i / (j 2 pi f) * exp(-j 2 pi f T c)]. *)
Definition spec_integral_branch (gain_i c f : R) : Cx.C :=
  Cx.mul (Cx.div (Cx.of_R gain_i) (Cx.mul Cx.J (Cx.of_R (2 * PI * f))))
         (Cx.exp (Cx.mul (Cx.opp Cx.J) (Cx.of_R (2 * PI * f * (Pid.T8ns * c))))).

(** [1 + j x / y] *)
Definition one_plus_j (x y : R) : Cx.C :=
  Cx.add Cx.one (Cx.div (Cx.mul Cx.J (Cx.of_R x)) (Cx.of_R y)).

(** ** Example buses and singular samples *)

(** The bus of the spec's example: [p = 1] (raw 4096 at 0x108), everything
    else zero. *)
Definition bus_p1 : bus :=
  mkBus (fun a => if Z.eqb a 0x108 then 4096%Z else 0%Z) [].

(** A sample is singular when one of its components is infinite. *)
Definition infinite (x : float64) : Prop := x = PInf \/ x = NInf.
Definition singular (z : complex128) : Prop := infinite (re z) \/ infinite (im z).

(** A bus whose integral gain register holds raw 1, so that [i] is not
    zero. *)
Definition bus_i1 : bus :=
  mkBus (fun a => if Z.eqb a 0x10C then 1%Z else 0%Z) [].

(** A bus whose derivative gain register holds raw 1, so that [d] is not
    zero. *)
Definition bus_d1 : bus :=
  mkBus (fun a => if Z.eqb a 0x110 then 1%Z else 0%Z) [].

(** ** Further definitions *)

(** [normalization_gain]: [return self.p / 2.0] *)
Definition normalization_gain : M R :=
  gain_p <- RegisterParameter.get Pid.p ;;
  ret (gain_p / 2).

(** The register descriptors that the class body declares. *)
Definition primary_registers : list FloatRegister :=
  [ Pid.setpoint; Pid.min_voltage; Pid.max_voltage; Pid.p; Pid.i; Pid.d ].

Definition declared_registers : list FloatRegister :=
  primary_registers ++ [ Pid.normalization_i; Pid.normalization_inputoffset ].

(** One filter stage on an exact gain, at frequency [f]. *)
Definition stage_closed (f : R) (z : Cx.C) (coeff : R) : Cx.C :=
  if Req_dec_T coeff 0 then z
  else if Rlt_dec 0 coeff then Cx.div z (one_plus_j f coeff)
  else Cx.div z (one_plus_j coeff f).

(** The response before the delay factor, in closed form. *)
Definition branch_closed (gain_p gain_i c : R) (filters : list R) (f : R)
  : Cx.C :=
  fold_left (stage_closed f) filters
    (Cx.add (integral_closed gain_i c f) (Cx.of_R gain_p)).

(** The transfer function at a nonzero frequency, in closed form. *)
Definition tf_closed (gain_p gain_i c : R) (filters : list R) (delay : R)
  (f : R) : Cx.C :=
  Cx.mul (branch_closed gain_p gain_i c filters f)
         (Cx.exp (Cx.mul (Cx.opp Cx.J) (Cx.of_R (2 * PI * f * delay)))).

(** The complex conjugate. *)
Definition Cx_conj (z : Cx.C) : Cx.C := (fst z, - snd z).

(** [np.conj] on a sample. *)
Definition cconj (z : complex128) : complex128 := mkC (re z) (fneg (im z)).

(** A coefficient that enables its filter slot. *)
Definition enabled (coeff : R) : bool :=
  if Req_dec_T coeff 0 then false else true.

(** * Proofs *)

(** ** Rounding *)

Lemma Rabs_bound (x b : R) : Rabs x <= b -> - b <= x <= b.
Proof.
  intros H. pose proof (Rle_abs x) as H1. pose proof (Rle_abs (- x)) as H2.
  rewrite Rabs_Ropp in H2. lra.
Qed.

Lemma round_half_even_error (x : R) :
  Rabs (IZR (round_half_even x) - x) <= 1 / 2.
Proof.
  unfold round_half_even.
  pose proof (base_fp x) as [Hlo Hhi].
  unfold frac_part in *.
  apply Rabs_le.
  destruct (Rlt_dec _ _) as [Hd | Hd].
  - lra.
  - destruct (Rlt_dec _ _) as [Hu | Hu].
    + rewrite plus_IZR. lra.
    + destruct (Z.even _); [| rewrite plus_IZR]; lra.
Qed.

Lemma round_half_away_error (x : R) :
  Rabs (IZR (round_half_away x) - x) <= 1 / 2.
Proof.
  unfold round_half_away. apply Rabs_le.
  destruct (Rle_dec 0 x) as [Hx | Hx].
  - pose proof (base_Int_part (x + 1 / 2)) as [H1 H2]. lra.
  - pose proof (base_Int_part (- x + 1 / 2)) as [H1 H2].
    rewrite opp_IZR. lra.
Qed.

Lemma py_round_error (m : rounding) (x : R) :
  Rabs (IZR (py_round m x) - x) <= 1 / 2.
Proof.
  destruct m; [apply round_half_even_error | apply round_half_away_error].
Qed.

(** Rounding stays between two integers that bracket its argument. *)
Lemma py_round_between (m : rounding) (x : R) (lo hi : Z) :
  IZR lo <= x <= IZR hi -> (lo <= py_round m x <= hi)%Z.
Proof.
  intros [Hlo Hhi].
  pose proof (py_round_error m x) as He.
  apply Rabs_bound in He. destruct He as [He1 He2].
  split.
  - apply Z.lt_pred_le. apply lt_IZR. unfold Z.pred. rewrite plus_IZR. lra.
  - apply Z.lt_succ_r. apply lt_IZR. unfold Z.succ. rewrite plus_IZR. lra.
Qed.

(** ** Two's complement words *)

Lemma fits_spec (w v : Z) :
  fits w v = true <-> (- 2 ^ (w - 1) <= v < 2 ^ (w - 1))%Z.
Proof.
  unfold fits. rewrite andb_true_iff, Z.leb_le, Z.ltb_lt. tauto.
Qed.

Lemma pow2_split (w : Z) : (0 < w)%Z -> (2 ^ w = 2 * 2 ^ (w - 1))%Z.
Proof.
  intros Hw. replace w with (Z.succ (w - 1)) at 1 by lia.
  apply Z.pow_succ_r. lia.
Qed.

Lemma testbit_sign (w v : Z) :
  (0 < w)%Z -> (- 2 ^ (w - 1) <= v < 2 ^ (w - 1))%Z ->
  Z.testbit v (w - 1) = (v <? 0)%Z.
Proof.
  intros Hw Hv.
  assert (Hp : (0 < 2 ^ (w - 1))%Z) by (apply Z.pow_pos_nonneg; lia).
  destruct (Z.ltb_spec v 0) as [Hneg | Hpos].
  - apply Z.testbit_true; [lia |].
    replace (v / 2 ^ (w - 1))%Z with (-1)%Z; [reflexivity |].
    apply Z.div_unique with (r := (v + 2 ^ (w - 1))%Z); lia.
  - apply Z.testbit_false; [lia |].
    rewrite Z.div_small by lia. reflexivity.
Qed.

(** A value that fits is recovered from its register word. *)
Lemma to_pyint_from_pyint (w v : Z) :
  (0 < w)%Z -> fits w v = true ->
  _to_pyint (Z.land v (Z.ones w)) w = v.
Proof.
  intros Hw Hfit. apply fits_spec in Hfit.
  unfold _to_pyint.
  rewrite <- Z.land_assoc, Z.land_diag.
  rewrite Z.land_ones by lia.
  rewrite Z.mod_pow2_bits_low by lia.
  rewrite (testbit_sign w v Hw Hfit).
  pose proof (pow2_split w Hw) as H2.
  destruct (Z.ltb_spec v 0) as [Hneg | Hpos].
  - rewrite <- (Z.mod_unique v (2 ^ w) (-1) (v + 2 ^ w)); lia.
  - apply Z.mod_small. lia.
Qed.

(** Every word read from a register decodes into the signed range of the bit
    width. *)
Lemma to_pyint_range (w v : Z) :
  (0 < w)%Z -> fits w (_to_pyint v w) = true.
Proof.
  intros Hw. apply fits_spec. unfold _to_pyint.
  rewrite Z.land_ones by lia.
  pose proof (pow2_split w Hw) as H2.
  assert (Hp : (0 < 2 ^ (w - 1))%Z) by (apply Z.pow_pos_nonneg; lia).
  pose proof (Z.mod_pos_bound v (2 ^ w) ltac:(lia)) as Hm.
  destruct (Z.testbit _ _) eqn:Hb.
  - apply Z.testbit_true in Hb; [| lia].
    assert (2 ^ (w - 1) <= v mod 2 ^ w)%Z; [| lia].
    destruct (Z.le_gt_cases (2 ^ (w - 1)) (v mod 2 ^ w)) as [| Hlt]; [assumption |].
    rewrite Z.div_small in Hb by lia. discriminate.
  - apply Z.testbit_false in Hb; [| lia].
    assert (v mod 2 ^ w < 2 ^ (w - 1))%Z; [| lia].
    destruct (Z.le_gt_cases (2 ^ (w - 1)) (v mod 2 ^ w)) as [Hge |]; [| assumption].
    replace ((v mod 2 ^ w) / 2 ^ (w - 1))%Z with 1%Z in Hb; [discriminate |].
    apply Z.div_unique with (r := (v mod 2 ^ w - 2 ^ (w - 1))%Z); lia.
Qed.

(** ** The codec on representable values *)

Lemma encode_unfold (m : rounding) (d : FloatRegister) (v : R) :
  FixedPointCodec.encode m d v =
  if fits (bits d) (py_round m (signed_value d v * norm d))
  then Ok (py_round m (signed_value d v * norm d)) else Raise RangeError.
Proof. reflexivity. Qed.

Lemma encode_fits (m : rounding) (d : FloatRegister) (v : R) (raw : Z) :
  FixedPointCodec.encode m d v = Ok raw ->
  raw = py_round m (signed_value d v * norm d) /\ fits (bits d) raw = true.
Proof.
  rewrite encode_unfold. destruct (fits _ _) eqn:Hf; [| discriminate].
  intros H. injection H as <-. auto.
Qed.

Lemma encode_representable (m : rounding) (d : FloatRegister) (v : R) :
  representable d v ->
  FixedPointCodec.encode m d v = Ok (py_round m (signed_value d v * norm d)).
Proof.
  intros Hr. rewrite encode_unfold.
  apply (py_round_between m) in Hr.
  replace (fits _ _) with true; [reflexivity |].
  symmetry. apply fits_spec. lia.
Qed.

Lemma decode_error (d : FloatRegister) (raw : Z) (v : R) :
  0 < norm d ->
  Rabs (IZR raw - signed_value d v * norm d) <= 1 / 2 ->
  Rabs (FixedPointCodec.decode d raw - v) <= 1 / norm d.
Proof.
  intros Hn He. apply Rabs_bound in He.
  unfold FixedPointCodec.decode. unfold signed_value in He.
  assert (Hi : 0 < / norm d) by (apply Rinv_0_lt_compat; assumption).
  apply Rabs_le.
  destruct (invert d).
  - rewrite opp_IZR.
    replace (- IZR raw / norm d - v)
      with (- (IZR raw - - v * norm d) * / norm d) by (field; lra).
    unfold Rdiv. nra.
  - replace (IZR raw / norm d - v)
      with ((IZR raw - v * norm d) * / norm d) by (field; lra).
    unfold Rdiv. nra.
Qed.

(** A successful [set] leaves the register word of the encoded value at the
    descriptor's address, after one write. *)
Lemma set_runs (m : rounding) (d : FloatRegister) (v : R) (b : bus) :
  outcome (RegisterParameter.set m d v) b = Ok tt ->
  exists raw,
    FixedPointCodec.encode m d v = Ok raw /\
    fits (bits d) raw = true /\
    RegisterParameter.set m d v b =
    (Ok tt,
     mkBus (fun a => if Z.eqb a (address d)
                     then Z.land raw (Z.ones (bits d)) else regs b a)
           (trace b ++ [BusWrite (address d) (Z.land raw (Z.ones (bits d)))])).
Proof.
  unfold outcome, RegisterParameter.set.
  destruct (_ && _); [| discriminate].
  unfold bind, lift.
  destruct (FixedPointCodec.encode m d v) as [raw | e] eqn:He; [| discriminate].
  destruct (encode_fits _ _ _ _ He) as [_ Hf].
  unfold _from_pyint. rewrite Hf. intros _.
  exists raw. auto.
Qed.

Lemma set_unbounded (m : rounding) (d : FloatRegister) (v : R) (b : bus) :
  unbounded d -> representable d v ->
  outcome (RegisterParameter.set m d v) b = Ok tt.
Proof.
  intros [Hmin Hmax] Hr.
  unfold outcome, RegisterParameter.set. rewrite Hmin, Hmax. simpl.
  unfold bind, lift. rewrite (encode_representable m d v Hr).
  apply (py_round_between m) in Hr.
  unfold _from_pyint.
  replace (fits _ _) with true; [reflexivity |].
  symmetry. apply fits_spec. lia.
Qed.

(** Reading through a descriptor that shares address and width with the one
    just written decodes the same raw integer. *)
Lemma get_after_set (m : rounding) (a b : FloatRegister) (v : R) (s : bus) :
  address a = address b -> bits a = bits b -> (0 < bits a)%Z ->
  outcome (RegisterParameter.set m a v) s = Ok tt ->
  exists raw,
    FixedPointCodec.encode m a v = Ok raw /\
    outcome (RegisterParameter.get b) (after (RegisterParameter.set m a v) s)
    = Ok (FixedPointCodec.decode b raw).
Proof.
  intros Haddr Hbits Hw Hok.
  destruct (set_runs m a v s Hok) as (raw & He & Hf & Hrun).
  exists raw. split; [assumption |].
  unfold after. rewrite Hrun.
  unfold outcome, RegisterParameter.get, bind, _read, ret. simpl.
  rewrite <- Haddr, <- Hbits, Z.eqb_refl.
  rewrite (to_pyint_from_pyint _ _ Hw Hf). reflexivity.
Qed.

(** ** Claims on the codec *)

(** C1.  Fixed-point codec round trip.  For every descriptor with a positive
    bit width and a positive normalization factor, and every value in the
    representable range, encoding succeeds and decoding the result returns the
    value to within one least significant bit, [1 / norm].  For the integrator
    state, a value between -4 V and the largest representable value
    [4 - 2^-13] V that is written and then read back differs from the value
    written by at most [2^-13] V. *)
Theorem codec_roundtrip (m : rounding) :
  (forall (d : FloatRegister) (v : R),
      (0 < bits d)%Z -> 0 < norm d -> representable d v ->
      exists raw,
        FixedPointCodec.encode m d v = Ok raw /\
        Rabs (FixedPointCodec.decode d raw - v) <= 1 / norm d) /\
  (forall (v : R) (b : bus),
      -4 <= v <= 4 - / 2 ^ 13 ->
      exists r,
        outcome (IValAttribute.set_value m v ;;; IValAttribute.get_value) b
        = Ok r /\
        Rabs (r - v) <= / 2 ^ 13).
Proof.
  split.
  - intros d v Hw Hn Hr.
    exists (py_round m (signed_value d v * norm d)). split.
    + apply encode_representable. assumption.
    + apply decode_error; [assumption | apply py_round_error].
  - intros v b Hv.
    set (raw := py_round m (v * 2 ^ 13)).
    assert (Hfit : fits 16 raw = true).
    { apply fits_spec. change (-32768 <= raw < 32768)%Z.
      assert (Hb : (-32768 <= raw <= 32767)%Z); [| lia].
      apply py_round_between. lra. }
    exists (IZR raw / 2 ^ 13). split.
    + unfold outcome, IValAttribute.set_value, IValAttribute.get_value.
      unfold bind, lift, _from_pyint. fold raw. rewrite Hfit.
      unfold _write, _read, ret. cbn [fst snd regs trace].
      rewrite Z.eqb_refl.
      rewrite (to_pyint_from_pyint 16 raw ltac:(lia) Hfit). reflexivity.
    + pose proof (py_round_error m (v * 2 ^ 13)) as He. fold raw in He.
      apply Rabs_bound in He. apply Rabs_le.
      replace (IZR raw / 2 ^ 13 - v)
        with ((IZR raw - v * 2 ^ 13) * / 2 ^ 13) by (field; lra).
      lra.
Qed.

Lemma codec_roundtrip_witness :
  (exists raw,
      FixedPointCodec.encode HalfEven Pid.setpoint (1 / 2) = Ok raw /\
      Rabs (FixedPointCodec.decode Pid.setpoint raw - 1 / 2)
      <= 1 / norm Pid.setpoint) /\
  (exists r,
      outcome (IValAttribute.set_value HalfEven (1 / 2) ;;;
               IValAttribute.get_value) (mkBus (fun _ => 0%Z) [])
      = Ok r /\
      Rabs (r - 1 / 2) <= / 2 ^ 13).
Proof.
  split.
  - apply (proj1 (codec_roundtrip HalfEven) Pid.setpoint (1 / 2)).
    + reflexivity.
    + simpl. lra.
    + unfold representable, signed_value. simpl. lra.
  - apply (proj2 (codec_roundtrip HalfEven) (1 / 2)). lra.
Defined.

Lemma py_round_IZR (m : rounding) (k : Z) : py_round m (IZR k) = k.
Proof.
  assert (H : (k <= py_round m (IZR k) <= k)%Z) by (apply py_round_between; lra).
  lia.
Qed.

(** C5.  Encode range check.  For every descriptor, a value whose rounded raw
    integer does not fit the two's-complement range of the bit width makes
    [encode] fail with [RangeError], and [set] fails with it leaving the bus
    untouched (nothing is written, no wrapped word is stored); writing the
    integrator state with a rounded value outside the 16-bit signed range
    fails with [RangeError] and stores nothing. *)
Theorem encode_range_check (m : rounding) :
  (forall (d : FloatRegister) (v : R),
      fits (bits d) (py_round m (signed_value d v * norm d)) = false ->
      FixedPointCodec.encode m d v = Raise RangeError /\
      forall b : bus, RegisterParameter.set m d v b = (Raise RangeError, b)) /\
  (forall (v : R) (b : bus),
      fits 16 (py_round m (v * 2 ^ 13)) = false ->
      IValAttribute.set_value m v b = (Raise RangeError, b)).
Proof.
  split.
  - intros d v Hf.
    assert (He : FixedPointCodec.encode m d v = Raise RangeError).
    { rewrite encode_unfold, Hf. reflexivity. }
    split; [assumption |].
    intros b. unfold RegisterParameter.set.
    destruct (_ && _); [| reflexivity].
    unfold bind, lift. rewrite He. reflexivity.
  - intros v b Hf.
    unfold IValAttribute.set_value, bind, lift, _from_pyint.
    rewrite Hf. reflexivity.
Qed.

Lemma encode_range_check_witness :
  (FixedPointCodec.encode HalfEven Pid.setpoint 1 = Raise RangeError /\
   forall b : bus,
     RegisterParameter.set HalfEven Pid.setpoint 1 b = (Raise RangeError, b)) /\
  (forall b : bus,
      IValAttribute.set_value HalfEven Pid.ival_max b = (Raise RangeError, b)).
Proof.
  split.
  - apply (proj1 (encode_range_check HalfEven) Pid.setpoint 1).
    replace (signed_value Pid.setpoint 1 * norm Pid.setpoint) with (IZR 8192)
      by (unfold signed_value; simpl; lra).
    rewrite py_round_IZR. reflexivity.
  - intros b. apply (proj2 (encode_range_check HalfEven) Pid.ival_max b).
    replace (Pid.ival_max * 2 ^ 13) with (IZR 32768)
      by (unfold Pid.ival_max; simpl; lra).
    rewrite py_round_IZR. reflexivity.
Defined.

(** C9.  Register aliasing.  [normalization_i] is bound to address 0x10C, the
    address of [i], and [normalization_inputoffset] to 0x110, the address of
    [d].  After a successful [set] through one member of such a pair, a [get]
    of the other member returns the raw integer just written, decoded with
    the reader's own normalization and inversion: the value depends on the
    value written, not on what the register held before. *)
Theorem register_aliasing :
  address Pid.normalization_i = address Pid.i /\
  address Pid.i = 0x10C%Z /\
  address Pid.normalization_inputoffset = address Pid.d /\
  address Pid.d = 0x110%Z /\
  forall (a b : FloatRegister), In (a, b) alias_pairs ->
  forall (m : rounding) (v : R) (s : bus),
    outcome (RegisterParameter.set m a v) s = Ok tt ->
    exists raw,
      FixedPointCodec.encode m a v = Ok raw /\
      outcome (RegisterParameter.get b) (after (RegisterParameter.set m a v) s)
      = Ok (FixedPointCodec.decode b raw).
Proof.
  repeat (split; [reflexivity |]).
  intros a b Hin m v s Hok.
  simpl in Hin.
  destruct Hin as [H | [H | [H | [H | []]]]]; injection H as <- <-;
    apply get_after_set; try reflexivity; assumption.
Qed.

Lemma register_aliasing_witness :
  exists raw,
    FixedPointCodec.encode HalfEven Pid.i 0 = Ok raw /\
    outcome (RegisterParameter.get Pid.normalization_i)
      (after (RegisterParameter.set HalfEven Pid.i 0) (mkBus (fun _ => 7%Z) []))
    = Ok (FixedPointCodec.decode Pid.normalization_i raw).
Proof.
  apply (proj2 (proj2 (proj2 (proj2 register_aliasing)))).
  - simpl. left. reflexivity.
  - apply set_unbounded.
    + split; reflexivity.
    + unfold representable, signed_value. simpl. lra.
Defined.

(** ** Exact complex numbers *)

Lemma Cx_norm2_pos (a : Cx.C) : a <> (0, 0) -> 0 < Cx.norm2 a.
Proof.
  destruct a as [x y]. unfold Cx.norm2. simpl. intros Hne.
  destruct (Req_dec x 0) as [-> | Hx].
  - destruct (Req_dec y 0) as [-> | Hy]; [congruence | nra].
  - nra.
Qed.

Lemma Cx_eq_parts (a b : Cx.C) : fst a = fst b -> snd a = snd b -> a = b.
Proof. destruct a, b. simpl. intros -> ->. reflexivity. Qed.

Lemma Cx_modulus_polar_1 (phi : R) : Cx.modulus (Cx.polar 1 phi) = 1.
Proof.
  unfold Cx.modulus, Cx.norm2, Cx.polar. simpl.
  pose proof (sin2_cos2 phi) as H. unfold Rsqr in H.
  replace (1 * cos phi * (1 * cos phi) + 1 * sin phi * (1 * sin phi))
    with 1 by lra.
  apply sqrt_1.
Qed.

Lemma cfin_inj (a b : Cx.C) : cfin a = cfin b -> a = b.
Proof.
  destruct a, b. unfold cfin. simpl. intros H. injection H as -> ->. reflexivity.
Qed.

Lemma of_float_cfin (x : R) : of_float x = cfin (Cx.of_R x).
Proof. reflexivity. Qed.

Lemma cadd_cfin (a b : Cx.C) : cadd (cfin a) (cfin b) = cfin (Cx.add a b).
Proof. reflexivity. Qed.

Lemma cmul_cfin (a b : Cx.C) : cmul (cfin a) (cfin b) = cfin (Cx.mul a b).
Proof. reflexivity. Qed.

Lemma cexp_cfin (a : Cx.C) : cexp (cfin a) = cfin (Cx.exp a).
Proof. reflexivity. Qed.

(** Two finite samples built from the same operations are equal when their
    components are equal as ring expressions. *)
Ltac finite_components :=
  unfold cmul, cadd, cfin, neg_j1, j1, of_float, fsub;
  cbn [re im fmul fadd fneg fst snd];
  f_equal; f_equal; ring.

(** The three-way test on a filter coefficient. *)
Ltac coefficient_cases f :=
  destruct (Req_dec_T f 0);
  [| destruct (Rlt_dec 0 f); [| destruct (Rlt_dec f 0)]].

Lemma neg_j_scaled (k : R) : cmul neg_j1 (of_float k) = cfin (0, - k).
Proof. finite_components. Qed.

Lemma neg_j_scaled2 (t c : R) :
  cmul (cmul neg_j1 (of_float t)) (of_float c) = cfin (0, - (t * c)).
Proof. finite_components. Qed.

Lemma fdiv_fin (x y : R) : y <> 0 -> fdiv (Fin x) (Fin y) = Fin (x / y).
Proof.
  intros Hy. unfold fdiv. destruct (Req_dec_T y 0); [contradiction | reflexivity].
Qed.

(** On finite operands with a divisor other than zero, numpy's division loop
    computes the complex quotient. *)
Lemma cdiv_cfin (a b : Cx.C) :
  b <> (0, 0) -> cdiv (cfin a) (cfin b) = cfin (Cx.div a b).
Proof.
  intros Hb. pose proof (Cx_norm2_pos b Hb) as Hn.
  destruct a as [ar ai], b as [br bi].
  unfold Cx.norm2 in Hn. simpl in Hn.
  unfold cdiv, cfin, Cx.div, Cx.norm2. cbn [re im fst snd fabs fge].
  destruct (Rle_dec (Rabs bi) (Rabs br)) as [Hge | Hlt].
  - assert (Hbr : br <> 0).
    { intros ->. rewrite Rabs_R0 in Hge.
      pose proof (Rabs_pos bi) as Hp.
      assert (Hz : Rabs bi = 0) by lra.
      destruct (Req_dec bi 0) as [-> | Hbi]; [lra |].
      apply Rabs_no_R0 in Hbi. contradiction. }
    unfold fis_zero.
    destruct (Req_dec_T (Rabs br) 0) as [Hz | _].
    { apply Rabs_no_R0 in Hbr. contradiction. }
    cbn [andb].
    rewrite (fdiv_fin bi br Hbr). cbn [fmul fadd fsub fneg].
    assert (Hs : br + bi * (bi / br) <> 0).
    { intros Hs. apply (Rmult_eq_compat_l br) in Hs.
      replace (br * (br + bi * (bi / br))) with (br * br + bi * bi) in Hs
        by (field; assumption).
      lra. }
    rewrite (fdiv_fin 1 _ Hs). cbn [fmul].
    f_equal; f_equal; field; split; lra.
  - assert (Hbi : bi <> 0).
    { intros ->. rewrite Rabs_R0 in Hlt. pose proof (Rabs_pos br). lra. }
    rewrite (fdiv_fin br bi Hbi). cbn [fmul fadd fsub fneg].
    assert (Hs : bi + br * (br / bi) <> 0).
    { intros Hs. apply (Rmult_eq_compat_l bi) in Hs.
      replace (bi * (bi + br * (br / bi))) with (br * br + bi * bi) in Hs
        by (field; assumption).
      lra. }
    rewrite (fdiv_fin 1 _ Hs). cbn [fmul].
    f_equal; f_equal; field; split; lra.
Qed.

(** NaN absorbs every operation it enters. *)
Lemma fadd_nan_r (a : float64) : fadd a NaN = NaN.
Proof. destruct a; reflexivity. Qed.

Lemma fmul_nan_r (a : float64) : fmul a NaN = NaN.
Proof. destruct a; reflexivity. Qed.

Lemma cadd_cnan (b : complex128) : cadd cnan b = cnan.
Proof. reflexivity. Qed.

Lemma cmul_cnan (b : complex128) : cmul cnan b = cnan.
Proof. reflexivity. Qed.

Lemma cdiv_cnan (b : complex128) : cdiv cnan b = cnan.
Proof.
  unfold cdiv, cnan. cbn [re im].
  destruct (fge _ _); [destruct (_ && _) |]; reflexivity.
Qed.

(** A sample whose imaginary part is NaN times a finite sample is NaN in both
    components, whatever its real part. *)
Lemma cmul_im_nan (x : float64) (z : Cx.C) : cmul (mkC x NaN) (cfin z) = cnan.
Proof.
  unfold cmul, cfin, cnan. cbn [re im]. unfold fsub.
  cbn [fmul fneg]. rewrite !fadd_nan_r. reflexivity.
Qed.

(** The array operations act element by element, so the array the method
    returns is the image of the frequency array under a function of one
    sample.  The functions below are the element-wise readings of the
    statements of [Pid.transfer_function]. *)

(** ** The transfer function, sample by sample *)

Lemma np_zip_map (op : complex128 -> complex128 -> complex128)
  {A : Type} (g h : A -> complex128) (l : list A) :
  np_zip op (map g l) (map h l) = map (fun x => op (g x) (h x)) l.
Proof.
  unfold np_zip. induction l as [| x l IH]; simpl; [reflexivity |].
  f_equal. exact IH.
Qed.

Lemma integral_term_samples (gain_i c : R) (ws : ndarray) :
  Pid.integral_term gain_i c ws = map (integral_sample gain_i c) ws.
Proof.
  unfold Pid.integral_term, Pid.integral_exponent, np_left, np_right, np_exp.
  rewrite !map_map. rewrite np_zip_map. reflexivity.
Qed.

Lemma delay_exponent_samples (delay : R) (ws : ndarray) :
  np_exp (Pid.delay_exponent delay ws) = map (delay_sample delay) ws.
Proof.
  unfold Pid.delay_exponent, np_left, np_right, np_exp.
  rewrite !map_map. reflexivity.
Qed.

Lemma filter_step_samples (ws : ndarray) (g : complex128 -> complex128)
  (dl : Z) (f : R) :
  Pid.filter_step ws (map g ws, dl) f =
  (map (fun w => filter_sample w (g w) f) ws, filter_delay dl f).
Proof.
  unfold Pid.filter_step, filter_sample, filter_delay.
  coefficient_cases f; try reflexivity;
    unfold np_left, np_right; rewrite !map_map, np_zip_map; reflexivity.
Qed.

Lemma filter_fold_samples (ws : ndarray) (filters : list R) :
  forall (g : complex128 -> complex128) (dl : Z),
  fold_left (Pid.filter_step ws) filters (map g ws, dl) =
  (map (fun w => fold_left (filter_sample w) filters (g w)) ws,
   fold_left filter_delay filters dl).
Proof.
  induction filters as [| f filters IH]; intros g dl; cbn [fold_left];
    [reflexivity |].
  rewrite filter_step_samples. apply IH.
Qed.

Lemma filter_delay_total (filters : list R) :
  forall dl : Z,
  fold_left filter_delay filters dl = (dl + extra_delay_cycles filters)%Z.
Proof.
  induction filters as [| f filters IH]; intros dl;
    cbn [fold_left extra_delay_cycles]; [lia |].
  rewrite IH. unfold filter_delay.
  destruct (Req_dec_T f 0) as [-> | Hf].
  - destruct (Rlt_dec 0 0); [lra |]. lia.
  - destruct (Rlt_dec 0 f); [lia |]. destruct (Rlt_dec f 0); lia.
Qed.

(** What a call does, in one equation: two bus reads (the integral gain,
    then the proportional gain), and the array of samples. *)
Lemma transfer_function_run (s : Pid.self) (fs : list R) (extradelay : R)
  (b : bus) :
  Pid._frequency_correction s <> 0 ->
  Pid.transfer_function s fs extradelay b =
  (Ok (map (tf_sample (gain Pid.p b) (gain Pid.i b)
              (Pid._frequency_correction s) (Pid.inputfilter s)
              (total_delay s extradelay))
           (np_array fs)),
   mkBus (regs b) ((trace b ++ [BusRead 0x10C]) ++ [BusRead 0x108])).
Proof.
  intros Hc.
  unfold Pid.transfer_function, RegisterParameter.get, bind, _read, ret.
  cbn [regs trace].
  rewrite integral_term_samples.
  unfold np_right at 1. rewrite map_map.
  rewrite filter_fold_samples, filter_delay_total.
  unfold lift, py_truediv.
  destruct (Req_dec_T _ 0) as [Hz | _]; [contradiction |].
  rewrite delay_exponent_samples, np_zip_map.
  reflexivity.
Qed.

Lemma transfer_function_zero_correction (s : Pid.self) (fs : list R)
  (extradelay : R) (b : bus) :
  Pid._frequency_correction s = 0 ->
  outcome (Pid.transfer_function s fs extradelay) b = Raise ZeroDivisionError.
Proof.
  intros Hc.
  unfold outcome, Pid.transfer_function, RegisterParameter.get, bind, _read, ret.
  cbn [regs trace].
  destruct (fold_left _ _ _) as [tf dl].
  unfold lift, py_truediv.
  destruct (Req_dec_T _ 0) as [_ | Hz]; [reflexivity | contradiction].
Qed.

(** ** Closed forms on finite samples *)

Lemma j1_cfin : j1 = cfin Cx.J.
Proof. reflexivity. Qed.

Lemma exponent_sample_cfin (k : R) (f : R) :
  exponent_sample (cfin (0, - k)) (of_float f)
  = cfin (Cx.mul (Cx.opp Cx.J) (Cx.of_R (2 * PI * f * k))).
Proof.
  unfold exponent_sample. rewrite !of_float_cfin, !cmul_cfin.
  f_equal. apply Cx_eq_parts; unfold Cx.mul, Cx.opp, Cx.J, Cx.of_R; simpl; ring.
Qed.

(** [g / (j x)], for [x] other than zero. *)
Lemma div_by_j (g x : R) :
  x <> 0 ->
  Cx.div (Cx.of_R g) (Cx.mul Cx.J (Cx.of_R x)) = (0, - (g / x)).
Proof.
  intros Hx. apply Cx_eq_parts;
    unfold Cx.div, Cx.norm2, Cx.mul, Cx.J, Cx.of_R; simpl; field; assumption.
Qed.

Lemma j_times_nonzero (x : R) :
  x <> 0 -> Cx.mul Cx.J (Cx.of_R x) <> (0, 0).
Proof.
  intros Hx H. apply (f_equal snd) in H.
  unfold Cx.mul, Cx.J, Cx.of_R in H. simpl in H. lra.
Qed.

Lemma integral_sample_finite (gain_i c f : R) :
  f <> 0 ->
  integral_sample gain_i c (of_float f) = cfin (integral_closed gain_i c f).
Proof.
  intros Hf. unfold integral_sample, integral_closed.
  rewrite neg_j_scaled2, exponent_sample_cfin, cexp_cfin.
  replace (cmul (of_float f) j1) with (cfin (Cx.mul Cx.J (Cx.of_R f))).
  2:{ rewrite of_float_cfin, j1_cfin, cmul_cfin. f_equal.
      apply Cx_eq_parts; unfold Cx.mul, Cx.J, Cx.of_R; simpl; ring. }
  rewrite of_float_cfin, cdiv_cfin by (apply j_times_nonzero; assumption).
  rewrite cmul_cfin. reflexivity.
Qed.

(** ** Claims on the branches of the transfer function *)

(** C2 (amended).  Integral branch formula.  For every integral gain [i],
    correction factor [c] and every array of nonzero frequencies, the
    integral contribution is [i / (j f) * exp(-j 2 pi f T c)] with [T] = 8 ns:
    the gain is divided by [j] times the frequency in hertz (there is no
    factor [2 pi] in the divisor), and one clock cycle of delay is folded into
    the phase term. *)
Theorem integral_branch_formula (gain_i c : R) (fs : list R) :
  Forall (fun f => f <> 0) fs ->
  Pid.integral_term gain_i c (np_array fs)
  = map (fun f => cfin (integral_closed gain_i c f)) fs.
Proof.
  intros Hfs. rewrite integral_term_samples. unfold np_array.
  rewrite map_map.
  induction Hfs as [| f fs Hf _ IH]; cbn [map]; [reflexivity |].
  rewrite (integral_sample_finite gain_i c f Hf). f_equal. exact IH.
Qed.

Lemma integral_branch_formula_witness :
  Pid.integral_term 1000 1 (np_array [1; 10; 100])
  = map (fun f => cfin (integral_closed 1000 1 f)) [1; 10; 100].
Proof.
  apply (integral_branch_formula 1000 1 [1; 10; 100]).
  repeat constructor; lra.
Defined.

(** C2, as the spec states it, fails: at [i = 1], [c = 1] and [f = 1] Hz the
    integral contribution is not [i / (j 2 pi f) * exp(-j 2 pi f T c)]. *)
Lemma integral_branch_spec_formula_fails :
  Pid.integral_term 1 1 (np_array [1]) <> [cfin (spec_integral_branch 1 1 1)].
Proof.
  rewrite integral_term_samples. unfold np_array. cbn [map].
  rewrite (integral_sample_finite 1 1 1) by lra.
  intros H.
  assert (H' : cfin (integral_closed 1 1 1) = cfin (spec_integral_branch 1 1 1))
    by congruence.
  clear H. apply cfin_inj in H'. rename H' into H.
  unfold integral_closed, spec_integral_branch in H.
  rewrite !div_by_j in H by (pose proof PI_RGT_0; lra).
  set (z := Cx.mul (Cx.opp Cx.J) _) in H.
  pose proof (exp_pos (fst z)) as He.
  pose proof (sin2_cos2 (snd z)) as Hsc. unfold Rsqr in Hsc.
  pose proof PI2_1 as Hpi.
  assert (Hq : 1 / (2 * PI * 1) < 1).
  { apply Rmult_lt_reg_r with (2 * PI * 1); [lra |].
    unfold Rdiv. rewrite Rmult_assoc, Rinv_l by lra. lra. }
  assert (Hab : 0 < fst (Cx.exp z) * fst (Cx.exp z)
                   + snd (Cx.exp z) * snd (Cx.exp z)).
  { unfold Cx.exp. cbn [fst snd]. nra. }
  destruct (Cx.exp z) as [a b]. cbn [fst snd] in Hab.
  unfold Cx.mul in H. cbn [fst snd] in H.
  injection H as H1 H2.
  set (q := 1 / (2 * PI * 1)) in *.
  assert (Ha : a = 0) by nra.
  assert (Hb : b = 0) by nra.
  subst a b. lra.
Qed.

Lemma np_zip_combine (op : complex128 -> complex128 -> complex128)
  {A B : Type} (g : A -> complex128) (h : B -> complex128)
  (l1 : list A) (l2 : list B) :
  np_zip op (map g l1) (map h l2)
  = map (fun xy => op (g (fst xy)) (h (snd xy))) (combine l1 l2).
Proof.
  unfold np_zip. revert l2.
  induction l1 as [| x l1 IH]; intros [| y l2]; cbn [map combine fst snd];
    try reflexivity.
  f_equal. apply IH.
Qed.

Lemma one_plus_j_value (x y : R) : y <> 0 -> one_plus_j x y = (1, x / y).
Proof.
  intros Hy. apply Cx_eq_parts;
    unfold one_plus_j, Cx.add, Cx.one, Cx.div, Cx.norm2, Cx.mul, Cx.J, Cx.of_R;
    simpl; field; assumption.
Qed.

Lemma one_plus_j_nonzero (x y : R) : y <> 0 -> one_plus_j x y <> (0, 0).
Proof.
  intros Hy. rewrite (one_plus_j_value x y Hy). intros H.
  apply (f_equal fst) in H. simpl in H. lra.
Qed.

Lemma of_R_nonzero (y : R) : y <> 0 -> Cx.of_R y <> (0, 0).
Proof.
  intros Hy H. apply (f_equal fst) in H. simpl in H. contradiction.
Qed.

(** One stage on a finite sample: the gain is divided by [1 + j x / y]. *)
Lemma stage_sample (z : Cx.C) (x y : R) :
  y <> 0 ->
  cdiv (cfin z) (cadd (of_float 1) (cdiv (cmul j1 (of_float x)) (of_float y)))
  = cfin (Cx.div z (one_plus_j x y)).
Proof.
  intros Hy.
  rewrite j1_cfin, !of_float_cfin, cmul_cfin.
  rewrite cdiv_cfin by (apply of_R_nonzero; assumption).
  rewrite cadd_cfin.
  rewrite cdiv_cfin by (apply one_plus_j_nonzero; assumption).
  reflexivity.
Qed.

Lemma filter_step_delay (ws tf : ndarray) (dl : Z) (f : R) :
  snd (Pid.filter_step ws (tf, dl) f) = filter_delay dl f.
Proof.
  unfold Pid.filter_step, filter_delay.
  coefficient_cases f; reflexivity.
Qed.

Lemma filter_fold_delay (ws : ndarray) (filters : list R) :
  forall (tf : ndarray) (dl : Z),
  snd (fold_left (Pid.filter_step ws) filters (tf, dl))
  = (dl + extra_delay_cycles filters)%Z.
Proof.
  induction filters as [| f filters IH]; intros tf dl;
    cbn [fold_left extra_delay_cycles snd]; [lia |].
  destruct (Pid.filter_step ws (tf, dl) f) as [tf' dl'] eqn:E.
  rewrite IH.
  assert (Hd : dl' = filter_delay dl f).
  { rewrite <- (filter_step_delay ws tf dl f), E. reflexivity. }
  rewrite Hd. unfold filter_delay.
  destruct (Req_dec_T f 0) as [-> | Hf].
  - destruct (Rlt_dec 0 0); [lra |]. lia.
  - destruct (Rlt_dec 0 f); [lia |]. destruct (Rlt_dec f 0); lia.
Qed.

Lemma extra_delay_cycles_app (l1 l2 : list R) :
  extra_delay_cycles (l1 ++ l2)
  = (extra_delay_cycles l1 + extra_delay_cycles l2)%Z.
Proof.
  induction l1 as [| f l1 IH]; cbn [app extra_delay_cycles]; [lia |].
  rewrite IH. lia.
Qed.

Lemma extra_delay_cycles_nonneg (l : list R) : (0 <= extra_delay_cycles l)%Z.
Proof.
  induction l as [| f l IH]; cbn [extra_delay_cycles]; [lia |].
  destruct (Rlt_dec 0 f); [lia |]. destruct (Rlt_dec f 0); lia.
Qed.

(** C3.  Filter cascade stage semantics.  On an array of finite gains, one
    turn of the filter loop with coefficient [f]:
    - [f = 0] changes neither the gains nor the delay;
    - [f > 0] divides each gain by [1 + j frequency / f] and adds 2 cycles;
    - [f < 0] divides each gain by [1 + j f / frequency] (at nonzero
      frequencies) and adds 1 cycle.
    Over any sequence of stages the delay is the initial delay plus the
    cycles of the stages, and it never decreases as stages are appended. *)
Theorem filter_stage_semantics (fs : list R) (zs : list Cx.C) (dl : Z) (f : R) :
  (f = 0 ->
   Pid.filter_step (np_array fs) (map cfin zs, dl) f = (map cfin zs, dl)) /\
  (0 < f ->
   Pid.filter_step (np_array fs) (map cfin zs, dl) f
   = (map (fun zw => cfin (Cx.div (fst zw) (one_plus_j (snd zw) f)))
          (combine zs fs),
      (dl + 2)%Z)) /\
  (f < 0 -> Forall (fun w => w <> 0) fs ->
   Pid.filter_step (np_array fs) (map cfin zs, dl) f
   = (map (fun zw => cfin (Cx.div (fst zw) (one_plus_j f (snd zw))))
          (combine zs fs),
      (dl + 1)%Z)) /\
  (forall (filters : list R) (tf : ndarray),
      let cycles l := snd (fold_left (Pid.filter_step (np_array fs)) l (tf, dl)) in
      cycles filters = (dl + extra_delay_cycles filters)%Z /\
      (dl <= cycles filters)%Z /\
      (cycles filters <= cycles (filters ++ [f]))%Z).
Proof.
  split; [| split; [| split]].
  - intros ->. unfold Pid.filter_step.
    destruct (Req_dec_T 0 0); [reflexivity | contradiction].
  - intros Hf. unfold Pid.filter_step.
    destruct (Req_dec_T f 0); [lra |].
    destruct (Rlt_dec 0 f); [| contradiction].
    f_equal. unfold np_left, np_right, np_array.
    rewrite !map_map, np_zip_combine.
    apply map_ext. intros [z w]. cbn [fst snd].
    apply stage_sample. lra.
  - intros Hf Hfs. unfold Pid.filter_step.
    destruct (Req_dec_T f 0); [lra |].
    destruct (Rlt_dec 0 f); [lra |].
    destruct (Rlt_dec f 0); [| contradiction].
    f_equal. unfold np_left, np_array.
    rewrite !map_map, np_zip_combine.
    apply map_ext_in. intros [z w] Hin. cbn [fst snd].
    apply stage_sample.
    apply in_combine_r in Hin.
    rewrite Forall_forall in Hfs. apply Hfs. assumption.
  - intros filters tf cycles. subst cycles. cbn beta.
    rewrite !filter_fold_delay, extra_delay_cycles_app.
    pose proof (extra_delay_cycles_nonneg filters).
    pose proof (extra_delay_cycles_nonneg [f]).
    repeat split; lia.
Qed.

Lemma filter_stage_semantics_witness :
  Pid.filter_step (np_array [1000]) (map cfin [(1, 0)], 3%Z) 0
  = (map cfin [(1, 0)], 3%Z) /\
  Pid.filter_step (np_array [1000]) (map cfin [(1, 0)], 3%Z) 1000
  = (map (fun zw => cfin (Cx.div (fst zw) (one_plus_j (snd zw) 1000)))
         (combine [(1, 0)] [1000]),
     (3 + 2)%Z) /\
  Pid.filter_step (np_array [1000]) (map cfin [(1, 0)], 3%Z) (-1000)
  = (map (fun zw => cfin (Cx.div (fst zw) (one_plus_j (-1000) (snd zw))))
         (combine [(1, 0)] [1000]),
     (3 + 1)%Z).
Proof.
  split; [| split].
  - apply (proj1 (filter_stage_semantics [1000] [(1, 0)] 3 0)). reflexivity.
  - apply (proj1 (proj2 (filter_stage_semantics [1000] [(1, 0)] 3 1000))). lra.
  - apply (proj1 (proj2 (proj2
             (filter_stage_semantics [1000] [(1, 0)] 3 (-1000))))).
    + lra.
    + repeat constructor; lra.
Defined.

(** ** The delay factor *)

(** [exp(-j x)] is the number of magnitude 1 and phase [-x]. *)
Lemma exp_neg_j (x : R) :
  Cx.exp (Cx.mul (Cx.opp Cx.J) (Cx.of_R x)) = Cx.polar 1 (- x).
Proof.
  apply Cx_eq_parts;
    unfold Cx.exp, Cx.mul, Cx.opp, Cx.J, Cx.of_R, Cx.polar; cbn [fst snd].
  - replace (- 0 * x - - (1) * 0) with 0 by ring.
    replace (- 0 * 0 + - (1) * x) with (- x) by ring.
    rewrite exp_0. reflexivity.
  - replace (- 0 * x - - (1) * 0) with 0 by ring.
    replace (- 0 * 0 + - (1) * x) with (- x) by ring.
    rewrite exp_0. reflexivity.
Qed.

(** Both arrays handed to [np.exp] hold finite samples only. *)
Lemma transfer_function_exp_args_finite (c delay : R) (fs : list R) :
  (exists zs, Pid.integral_exponent c (np_array fs) = map cfin zs) /\
  (exists zs, Pid.delay_exponent delay (np_array fs) = map cfin zs).
Proof.
  split.
  - exists (map (fun f => Cx.mul (Cx.opp Cx.J)
                            (Cx.of_R (2 * PI * f * (Pid.T8ns * c)))) fs).
    unfold Pid.integral_exponent, np_left, np_right, np_array.
    rewrite !map_map. apply map_ext. intros f.
    rewrite <- exponent_sample_cfin, <- neg_j_scaled2. reflexivity.
  - exists (map (fun f => Cx.mul (Cx.opp Cx.J)
                            (Cx.of_R (2 * PI * f * delay))) fs).
    unfold Pid.delay_exponent, np_left, np_right, np_array.
    rewrite !map_map. apply map_ext. intros f.
    rewrite <- exponent_sample_cfin, <- neg_j_scaled. reflexivity.
Qed.

Lemma delay_sample_finite (delay f : R) :
  delay_sample delay (of_float f)
  = cfin (Cx.exp (Cx.mul (Cx.opp Cx.J) (Cx.of_R (2 * PI * f * delay)))).
Proof.
  unfold delay_sample.
  rewrite neg_j_scaled, exponent_sample_cfin, cexp_cfin. reflexivity.
Qed.

Lemma integral_closed_zero_gain (c f : R) :
  f <> 0 -> integral_closed 0 c f = (0, 0).
Proof.
  intros Hf. unfold integral_closed. rewrite div_by_j by assumption.
  apply Cx_eq_parts; unfold Cx.mul; cbn [fst snd]; field; assumption.
Qed.

(** The result of a call whose correction factor is not zero. *)
Lemma transfer_function_outcome (s : Pid.self) (fs : list R) (extradelay : R)
  (b : bus) :
  Pid._frequency_correction s <> 0 ->
  outcome (Pid.transfer_function s fs extradelay) b
  = Ok (map (fun f => tf_sample (gain Pid.p b) (gain Pid.i b)
                        (Pid._frequency_correction s) (Pid.inputfilter s)
                        (total_delay s extradelay) (of_float f)) fs).
Proof.
  intros Hc. unfold outcome.
  rewrite (transfer_function_run s fs extradelay b Hc). cbn [fst].
  unfold np_array. rewrite map_map. reflexivity.
Qed.

(** C4.  Total delay application.  For every frequency array, gain snapshot,
    filter configuration and external delay, with a correction factor [c]
    other than zero, [transfer_function] returns the combined branch response
    multiplied, sample by sample, by [exp(-j 2 pi f delay)] where
    [delay = (3 + extra_delay_cycles) * 8 ns / c + extradelay].  In
    particular, with [p = 1], [i = 0] and no filters, at nonzero frequencies
    each sample has magnitude 1 and phase [-2 pi f delay], with
    [delay = 3 * 8 ns / c + extradelay]. *)
Theorem total_delay_application (s : Pid.self) (fs : list R) (extradelay : R)
  (b : bus) :
  let c := Pid._frequency_correction s in
  let delay :=
    IZR (3 + extra_delay_cycles (Pid.inputfilter s)) * (8 / 10 ^ 9) / c
    + extradelay in
  c <> 0 ->
  outcome (Pid.transfer_function s fs extradelay) b
  = Ok (map (fun f =>
               cmul (branch_sample (gain Pid.p b) (gain Pid.i b) c
                       (Pid.inputfilter s) (of_float f))
                    (cfin (Cx.exp (Cx.mul (Cx.opp Cx.J)
                                     (Cx.of_R (2 * PI * f * delay))))))
            fs) /\
  (Pid.inputfilter s = [] -> gain Pid.p b = 1 -> gain Pid.i b = 0 ->
   Forall (fun f => f <> 0) fs ->
   outcome (Pid.transfer_function s fs extradelay) b
   = Ok (map (fun f =>
                cfin (Cx.polar 1
                        (- (2 * PI * f * (3 * (8 / 10 ^ 9) / c + extradelay)))))
             fs) /\
   forall phi : R, Cx.modulus (Cx.polar 1 phi) = 1).
Proof.
  intros c delay Hc.
  assert (Hgen :
    outcome (Pid.transfer_function s fs extradelay) b
    = Ok (map (fun f =>
               cmul (branch_sample (gain Pid.p b) (gain Pid.i b) c
                       (Pid.inputfilter s) (of_float f))
                    (cfin (Cx.exp (Cx.mul (Cx.opp Cx.J)
                                     (Cx.of_R (2 * PI * f * delay))))))
            fs)).
  { rewrite (transfer_function_outcome s fs extradelay b Hc). f_equal.
    apply map_ext. intros f. unfold tf_sample.
    rewrite delay_sample_finite. reflexivity. }
  split; [exact Hgen |].
  intros Hnil Hp Hi Hfs. split; [| apply Cx_modulus_polar_1].
  rewrite Hgen. f_equal. apply map_ext_in. intros f Hin.
  rewrite Forall_forall in Hfs. pose proof (Hfs f Hin) as Hf.
  unfold branch_sample. rewrite Hnil, Hp, Hi. cbn [fold_left].
  rewrite (integral_sample_finite 0 c f Hf), integral_closed_zero_gain by assumption.
  rewrite of_float_cfin, cadd_cfin, cmul_cfin, exp_neg_j.
  subst delay. rewrite Hnil. cbn [extra_delay_cycles].
  f_equal. apply Cx_eq_parts;
    unfold Cx.mul, Cx.add, Cx.of_R, Cx.polar; cbn [fst snd].
  - replace (IZR (3 + 0)) with 3 by (simpl; lra). ring.
  - replace (IZR (3 + 0)) with 3 by (simpl; lra). ring.
Qed.

Lemma gain_p_bus_p1 : gain Pid.p bus_p1 = 1.
Proof.
  unfold gain, FixedPointCodec.decode.
  replace (_to_pyint _ _) with 4096%Z by (vm_compute; reflexivity).
  simpl. lra.
Qed.

Lemma gain_i_bus_p1 : gain Pid.i bus_p1 = 0.
Proof.
  unfold gain, FixedPointCodec.decode.
  replace (_to_pyint _ _) with 0%Z by (vm_compute; reflexivity).
  cbn [Pid.i invert norm]. unfold Rdiv. ring.
Qed.

Lemma total_delay_application_witness :
  outcome (Pid.transfer_function (Pid.mkSelf [] 1) [1; 10; 100] 0) bus_p1
  = Ok (map (fun f =>
               cfin (Cx.polar 1 (- (2 * PI * f * (3 * (8 / 10 ^ 9) / 1 + 0)))))
            [1; 10; 100]).
Proof.
  apply (proj2 (total_delay_application (Pid.mkSelf [] 1) [1; 10; 100] 0 bus_p1
                  ltac:(cbn; lra))).
  - reflexivity.
  - apply gain_p_bus_p1.
  - apply gain_i_bus_p1.
  - repeat constructor; lra.
Defined.

(** ** The sample at frequency zero *)

(** At frequency zero the divisor [frequencies * 1j] of the integral term is
    zero. *)
Lemma integral_divisor_zero : cmul (of_float 0) j1 = cfin (0, 0).
Proof. finite_components. Qed.

(** Dividing by that zero leaves NaN in the imaginary part ([0 / 0]),
    whatever the gain. *)
Lemma cdiv_by_zero_im (g : R) : im (cdiv (of_float g) (cfin (0, 0))) = NaN.
Proof.
  unfold cdiv, of_float, cfin. cbn [re im fst snd fabs fge fis_zero].
  rewrite Rabs_R0.
  destruct (Rle_dec 0 0) as [_ | H]; [| lra].
  destruct (Req_dec_T 0 0) as [_ | H]; [| lra].
  cbn [andb im fdiv].
  destruct (Req_dec_T 0 0) as [_ | H]; [reflexivity | lra].
Qed.

Lemma integral_sample_zero (gain_i c : R) :
  integral_sample gain_i c (of_float 0) = cnan.
Proof.
  unfold integral_sample.
  rewrite neg_j_scaled2, exponent_sample_cfin, cexp_cfin, integral_divisor_zero.
  pose proof (cdiv_by_zero_im gain_i) as Him.
  destruct (cdiv (of_float gain_i) (cfin (0, 0))) as [x y].
  cbn [im] in Him. subst y. apply cmul_im_nan.
Qed.

Lemma filter_sample_cnan (w : complex128) (f : R) :
  filter_sample w cnan f = cnan.
Proof.
  unfold filter_sample.
  coefficient_cases f; try reflexivity; apply cdiv_cnan.
Qed.

Lemma filter_fold_cnan (w : complex128) (filters : list R) :
  fold_left (filter_sample w) filters cnan = cnan.
Proof.
  induction filters as [| f filters IH]; cbn [fold_left]; [reflexivity |].
  rewrite filter_sample_cnan. exact IH.
Qed.

(** Whatever the gains, the filters and the delay, the sample at frequency
    zero is NaN in both components. *)
Lemma tf_sample_zero (gain_p gain_i c : R) (filters : list R) (delay : R) :
  tf_sample gain_p gain_i c filters delay (of_float 0) = cnan.
Proof.
  unfold tf_sample, branch_sample.
  rewrite integral_sample_zero, cadd_cnan, filter_fold_cnan.
  apply cmul_cnan.
Qed.

Lemma transfer_function_at_zero (s : Pid.self) (fs : list R) (extradelay : R)
  (b : bus) (k : nat) :
  Pid._frequency_correction s <> 0 ->
  nth_error fs k = Some 0 ->
  exists out,
    outcome (Pid.transfer_function s fs extradelay) b = Ok out /\
    nth_error out k = Some cnan.
Proof.
  intros Hc Hk.
  eexists. split; [apply transfer_function_outcome; assumption |].
  rewrite nth_error_map, Hk. cbn [option_map].
  rewrite tf_sample_zero. reflexivity.
Qed.

Lemma cnan_not_singular : ~ singular cnan.
Proof.
  unfold singular, infinite, cnan. cbn [re im].
  intros [[H | H] | [H | H]]; discriminate.
Qed.

Lemma T8ns_pos : 0 < Pid.T8ns.
Proof. unfold Pid.T8ns. lra. Qed.

Lemma gain_i_bus_i1 : gain Pid.i bus_i1 <> 0.
Proof.
  unfold gain, FixedPointCodec.decode.
  replace (_to_pyint _ _) with 1%Z by (vm_compute; reflexivity).
  cbn [Pid.i invert norm].
  pose proof PI_RGT_0 as Hpi. pose proof T8ns_pos as Ht.
  assert (Hn : 0 < 2 ^ Pid._ISR * 2 * PI * Pid.T8ns).
  { apply Rmult_lt_0_compat; [| assumption].
    apply Rmult_lt_0_compat; [| assumption].
    apply Rmult_lt_0_compat; [apply pow_lt |]; lra. }
  apply Rgt_not_eq. apply Rdiv_lt_0_compat; lra.
Qed.

(** ** Claims on singular samples *)

(** C6 (amended).  Whenever [transfer_function] is evaluated, with a nonzero
    correction factor, at a frequency sample equal to 0 in combination with a
    nonzero integral gain or an active high-pass stage, the call returns
    without raising and the sample is NaN in both components: it is not an
    infinite value and carries no label. *)
Theorem zero_frequency_sample_is_nan (s : Pid.self) (fs : list R)
  (extradelay : R) (b : bus) (k : nat) :
  Pid._frequency_correction s <> 0 ->
  nth_error fs k = Some 0 ->
  gain Pid.i b <> 0 \/ Exists (fun f => f < 0) (Pid.inputfilter s) ->
  exists out,
    outcome (Pid.transfer_function s fs extradelay) b = Ok out /\
    nth_error out k = Some (mkC NaN NaN) /\
    forall z, nth_error out k = Some z -> ~ singular z.
Proof.
  intros Hc Hk _.
  destruct (transfer_function_at_zero s fs extradelay b k Hc Hk)
    as (out & Hout & Hnth).
  exists out. split; [assumption |]. split; [exact Hnth |].
  intros z Hz. rewrite Hnth in Hz. injection Hz as <-.
  apply cnan_not_singular.
Qed.

Lemma zero_frequency_sample_is_nan_witness :
  exists out,
    outcome (Pid.transfer_function (Pid.mkSelf [] 1) [0] 0) bus_i1 = Ok out /\
    nth_error out 0 = Some (mkC NaN NaN) /\
    forall z, nth_error out 0 = Some z -> ~ singular z.
Proof.
  apply (zero_frequency_sample_is_nan (Pid.mkSelf [] 1) [0] 0 bus_i1 0).
  - cbn. lra.
  - reflexivity.
  - left. apply gain_i_bus_i1.
Defined.

(** C6, as the spec states it, fails: with a nonzero integral gain, the
    sample at frequency 0 is not a singular (infinite) value. *)
Lemma zero_frequency_sample_not_singular :
  ~ (gain Pid.i bus_i1 <> 0 ->
     exists out z,
       outcome (Pid.transfer_function (Pid.mkSelf [] 1) [0] 0) bus_i1 = Ok out /\
       nth_error out 0 = Some z /\ singular z).
Proof.
  intros H. destruct (H gain_i_bus_i1) as (out & z & Hout & Hz & Hs).
  destruct (transfer_function_at_zero (Pid.mkSelf [] 1) [0] 0 bus_i1 0)
    as (out' & Hout' & Hnth); [cbn; lra | reflexivity |].
  assert (out' = out) by congruence. subst out'.
  rewrite Hnth in Hz. injection Hz as <-.
  exact (cnan_not_singular Hs).
Qed.

(** C10.  Zero-frequency division without an integral branch.  For every gain
    snapshot, filter configuration and delay (the correction factor being
    other than zero, so that the call returns), at a frequency sample equal
    to 0 the divisor of the integral term is zero and nothing guards the
    division: the sample of the result is NaN.  This holds also when the
    integral gain is 0, where the result is NaN and not the proportional
    gain [p]. *)
Theorem zero_frequency_unguarded (s : Pid.self) (fs : list R)
  (extradelay : R) (b : bus) (k : nat) :
  Pid._frequency_correction s <> 0 ->
  nth_error fs k = Some 0 ->
  nth_error (np_right cmul (np_array fs) j1) k = Some (cfin (0, 0)) /\
  exists out,
    outcome (Pid.transfer_function s fs extradelay) b = Ok out /\
    nth_error out k = Some (mkC NaN NaN) /\
    (gain Pid.i b = 0 -> nth_error out k <> Some (of_float (gain Pid.p b))).
Proof.
  intros Hc Hk. split.
  - unfold np_right, np_array. rewrite !nth_error_map, Hk. cbn [option_map].
    rewrite integral_divisor_zero. reflexivity.
  - destruct (transfer_function_at_zero s fs extradelay b k Hc Hk)
      as (out & Hout & Hnth).
    exists out. split; [assumption |]. split; [exact Hnth |].
    intros _. rewrite Hnth. intros H. injection H as H _. discriminate.
Qed.

Lemma zero_frequency_unguarded_witness :
  nth_error (np_right cmul (np_array [0; 1]) j1) 0 = Some (cfin (0, 0)) /\
  exists out,
    outcome (Pid.transfer_function (Pid.mkSelf [] 1) [0; 1] 0) bus_p1 = Ok out /\
    nth_error out 0 = Some (mkC NaN NaN) /\
    (gain Pid.i bus_p1 = 0 ->
     nth_error out 0 <> Some (of_float (gain Pid.p bus_p1))).
Proof.
  apply (zero_frequency_unguarded (Pid.mkSelf [] 1) [0; 1] 0 bus_p1 0).
  - cbn. lra.
  - reflexivity.
Defined.

(** ** Bus accesses of [transfer_function] *)

(** The bus after a call, raising or not: the registers are as before and
    two reads were added to the trace. *)
Lemma transfer_function_bus (s : Pid.self) (fs : list R) (extradelay : R)
  (b : bus) :
  after (Pid.transfer_function s fs extradelay) b
  = mkBus (regs b) ((trace b ++ [BusRead 0x10C]) ++ [BusRead 0x108]).
Proof.
  unfold after, Pid.transfer_function, RegisterParameter.get, bind, _read, ret.
  cbn [regs trace].
  destruct (fold_left _ _ _) as [tf dl].
  unfold lift, py_truediv.
  destruct (Req_dec_T _ 0); reflexivity.
Qed.

Lemma transfer_function_performed (s : Pid.self) (fs : list R)
  (extradelay : R) (b : bus) :
  performed (Pid.transfer_function s fs extradelay) b
  = [BusRead 0x10C; BusRead 0x108].
Proof.
  unfold performed. rewrite transfer_function_bus. cbn [trace].
  rewrite <- app_assoc. rewrite skipn_app, skipn_all, Nat.sub_diag.
  reflexivity.
Qed.

(** C7 (amended).  Bus effects of the synthesizer.  [transfer_function] takes
    the gains from the bus itself: every call performs exactly two bus reads,
    first of the integral gain register (0x10C), then of the proportional
    gain register (0x108).  It performs no bus write and leaves every
    register as it was.  (The filter configuration and the correction factor
    are taken as given values.) *)
Theorem transfer_function_bus_effects (s : Pid.self) (fs : list R)
  (extradelay : R) (b : bus) :
  performed (Pid.transfer_function s fs extradelay) b
  = [BusRead (address Pid.i); BusRead (address Pid.p)] /\
  address Pid.i = 0x10C%Z /\ address Pid.p = 0x108%Z /\
  existsb is_write (performed (Pid.transfer_function s fs extradelay) b) = false /\
  regs (after (Pid.transfer_function s fs extradelay) b) = regs b.
Proof.
  rewrite transfer_function_performed, transfer_function_bus.
  repeat split; reflexivity.
Qed.

(** C7, as the spec states it, fails: a call on one frequency performs bus
    accesses. *)
Lemma transfer_function_reads_bus :
  performed (Pid.transfer_function (Pid.mkSelf [] 1) [1] 0) bus_p1 <> [].
Proof.
  rewrite transfer_function_performed. discriminate.
Qed.

(** ** The derivative gain *)

Lemma gain_d_bus_d1 : gain Pid.d bus_d1 <> 0.
Proof.
  unfold gain, FixedPointCodec.decode.
  replace (_to_pyint _ _) with 1%Z by (vm_compute; reflexivity).
  cbn [Pid.d invert norm].
  pose proof PI_RGT_0 as Hpi. pose proof T8ns_pos as Ht.
  assert (Hn : 0 < 2 * PI * Pid.T8ns).
  { apply Rmult_lt_0_compat; [lra | assumption]. }
  assert (Hd : 0 < 2 ^ Pid._DSR / (2 * PI * Pid.T8ns)).
  { apply Rdiv_lt_0_compat; [apply pow_lt |]; lra. }
  pose proof (Rinv_0_lt_compat _ Hd) as Hinv.
  rewrite opp_IZR. unfold Rdiv at 1. intros H. lra.
Qed.

(** C8 (amended).  The derivative gain is not part of the model.
    [transfer_function] never reads the derivative gain register (0x110) and
    raises no error on its account: two buses that agree on the proportional
    and the integral gain registers give the same outcome whatever the
    derivative gain is, and with a nonzero correction factor that outcome is
    a returned array, in which the derivative contribution is absent. *)
Theorem derivative_gain_ignored (s : Pid.self) (fs : list R) (extradelay : R)
  (b b' : bus) :
  regs b (address Pid.p) = regs b' (address Pid.p) ->
  regs b (address Pid.i) = regs b' (address Pid.i) ->
  outcome (Pid.transfer_function s fs extradelay) b
  = outcome (Pid.transfer_function s fs extradelay) b' /\
  ~ In (BusRead (address Pid.d))
       (performed (Pid.transfer_function s fs extradelay) b) /\
  (Pid._frequency_correction s <> 0 ->
   outcome (Pid.transfer_function s fs extradelay) b
   = Ok (map (fun f => tf_sample (gain Pid.p b) (gain Pid.i b)
                         (Pid._frequency_correction s) (Pid.inputfilter s)
                         (total_delay s extradelay) (of_float f)) fs)).
Proof.
  intros Hp Hi. split; [| split].
  - destruct (Req_dec_T (Pid._frequency_correction s) 0) as [Hc | Hc].
    + rewrite !transfer_function_zero_correction by assumption. reflexivity.
    + rewrite !transfer_function_outcome by assumption.
      unfold gain. rewrite Hp, Hi. reflexivity.
  - rewrite transfer_function_performed. cbn [In address Pid.d].
    intros [H | [H | []]]; discriminate.
  - apply transfer_function_outcome.
Qed.

Lemma derivative_gain_ignored_witness :
  outcome (Pid.transfer_function (Pid.mkSelf [] 1) [1] 0) bus_d1
  = outcome (Pid.transfer_function (Pid.mkSelf [] 1) [1] 0)
      (mkBus (fun _ => 0%Z) []).
Proof.
  apply (proj1 (derivative_gain_ignored (Pid.mkSelf [] 1) [1] 0 bus_d1
                  (mkBus (fun _ => 0%Z) []) eq_refl eq_refl)).
Defined.

(** C8, as the spec states it, fails: with a nonzero derivative gain the call
    raises nothing; it returns an array. *)
Lemma derivative_request_not_reported :
  ~ (gain Pid.d bus_d1 <> 0 ->
     exists e,
       outcome (Pid.transfer_function (Pid.mkSelf [] 1) [1] 0) bus_d1
       = Raise e).
Proof.
  intros H. destruct (H gain_d_bus_d1) as [e He].
  rewrite transfer_function_outcome in He by (cbn; lra).
  discriminate.
Qed.

(** ** The spec's filter examples *)

(** Four bypassed slots: unit gain and no extra delay. *)
Example bypass_cascade (ws tf : ndarray) (dl : Z) :
  fold_left (Pid.filter_step ws) [0; 0; 0; 0] (tf, dl) = (tf, dl).
Proof.
  cbn [fold_left]. unfold Pid.filter_step.
  destruct (Req_dec_T 0 0) as [_ | H]; [reflexivity | contradiction].
Qed.

(** A low-pass stage at its corner frequency, and a high-pass stage at its
    corner frequency, both attenuate to [1 / sqrt 2]. *)
Example corner_attenuation :
  Cx.modulus (Cx.div Cx.one (one_plus_j 1000 1000)) = / sqrt 2 /\
  Cx.modulus (Cx.div Cx.one (one_plus_j (-1000) 1000)) = / sqrt 2.
Proof.
  rewrite !one_plus_j_value by lra.
  unfold Cx.modulus, Cx.norm2, Cx.div, Cx.norm2, Cx.one. cbn [fst snd].
  split.
  - replace (_ + _) with (/ 2) by (field; lra). apply sqrt_inv.
  - replace (_ + _) with (/ 2) by (field; lra). apply sqrt_inv.
Qed.

Example corner_delays :
  extra_delay_cycles [1000; 0; 0; 0] = 2%Z /\
  extra_delay_cycles [-1000; 0; 0; 0] = 1%Z.
Proof.
  cbn [extra_delay_cycles].
  repeat (destruct (Rlt_dec _ _); try lra).
  split; reflexivity.
Qed.

(** * Further properties of the module *)

(** ** The integrator value attribute *)

Lemma performed_one {A} (m : M A) (b : bus) (e : bus_event) :
  trace (after m b) = trace b ++ [e] -> performed m b = [e].
Proof.
  intros H. unfold performed. rewrite H.
  rewrite skipn_app, skipn_all, Nat.sub_diag. reflexivity.
Qed.

Lemma ival_set_value_run (m : rounding) (v : R) (b : bus) :
  IValAttribute.set_value m v b =
  let raw := py_round m (v * 2 ^ 13) in
  if fits 16 raw
  then (Ok tt,
        mkBus (fun a => if Z.eqb a 0x100
                        then Z.land raw (Z.ones 16) else regs b a)
              (trace b ++ [BusWrite 0x100 (Z.land raw (Z.ones 16))]))
  else (Raise RangeError, b).
Proof.
  unfold IValAttribute.set_value, bind, lift, _from_pyint. cbn zeta.
  destruct (fits 16 _); reflexivity.
Qed.

Lemma ival_set_value_ok (m : rounding) (v : R) (b : bus) :
  outcome (IValAttribute.set_value m v) b = Ok tt ->
  fits 16 (py_round m (v * 2 ^ 13)) = true.
Proof.
  unfold outcome. rewrite ival_set_value_run. cbn zeta.
  destruct (fits 16 _); [reflexivity | discriminate].
Qed.

Lemma ival_get_after_set (m : rounding) (v : R) (b : bus) :
  fits 16 (py_round m (v * 2 ^ 13)) = true ->
  outcome IValAttribute.get_value (after (IValAttribute.set_value m v) b)
  = Ok (IZR (py_round m (v * 2 ^ 13)) / 2 ^ 13).
Proof.
  intros Hf. unfold after. rewrite ival_set_value_run. cbn zeta. rewrite Hf.
  unfold outcome, IValAttribute.get_value, bind, _read, ret.
  cbn [fst snd regs trace]. rewrite Z.eqb_refl.
  rewrite (to_pyint_from_pyint 16 _ ltac:(lia) Hf). reflexivity.
Qed.

Lemma ival_sequence (m : rounding) (v : R) (b : bus) :
  outcome (IValAttribute.set_value m v ;;; IValAttribute.get_value) b
  = if fits 16 (py_round m (v * 2 ^ 13))
    then Ok (IZR (py_round m (v * 2 ^ 13)) / 2 ^ 13)
    else Raise RangeError.
Proof.
  destruct (fits 16 _) eqn:Hf.
  - rewrite <- (ival_get_after_set m v b Hf).
    unfold outcome, after, bind. rewrite ival_set_value_run. cbn zeta.
    rewrite Hf. reflexivity.
  - unfold outcome, bind. rewrite ival_set_value_run. cbn zeta.
    rewrite Hf. reflexivity.
Qed.

(** Rounding is monotone. *)
Lemma py_round_monotone (m : rounding) (x y : R) :
  x <= y -> (py_round m x <= py_round m y)%Z.
Proof.
  intros Hxy.
  destruct (Z.le_gt_cases (py_round m x) (py_round m y)) as [| Hgt];
    [assumption |].
  pose proof (Rabs_bound _ _ (py_round_error m x)) as [Hx1 Hx2].
  pose proof (Rabs_bound _ _ (py_round_error m y)) as [Hy1 Hy2].
  assert (Hz : (py_round m y + 1 <= py_round m x)%Z) by lia.
  apply IZR_le in Hz. rewrite plus_IZR in Hz.
  assert (Heq : x = y) by lra.
  subst y. lia.
Qed.

(** X1.  Reading the integrator value never fails, makes exactly one bus
    read, of register 0x100, and changes no register.  The value is a whole
    number [k] of declared increments ([8 / 2^16] V) with [k] in the 16-bit
    signed range, so it lies between the declared minimum -4 V and one
    increment below the declared maximum 4 V. *)
Theorem ival_get_value_range (b : bus) :
  exists k : Z,
    outcome IValAttribute.get_value b = Ok (IZR k * Pid.ival_increment) /\
    (- 2 ^ 15 <= k < 2 ^ 15)%Z /\
    Pid.ival_min <= IZR k * Pid.ival_increment
    <= Pid.ival_max - Pid.ival_increment /\
    performed IValAttribute.get_value b = [BusRead 0x100] /\
    regs (after IValAttribute.get_value b) = regs b.
Proof.
  exists (_to_pyint (regs b 0x100) 16).
  pose proof (to_pyint_range 16 (regs b 0x100) ltac:(lia)) as Hf.
  apply fits_spec in Hf. change (16 - 1)%Z with 15%Z in Hf.
  destruct Hf as [Hlo Hhi].
  split; [| split; [lia | split; [| split]]].
  - unfold outcome, IValAttribute.get_value, bind, _read, ret. cbn [fst].
    f_equal. unfold Pid.ival_increment. field.
  - assert (H1 : (-32768 <= _to_pyint (regs b 0x100) 16)%Z) by lia.
    assert (H2 : (_to_pyint (regs b 0x100) 16 <= 32767)%Z) by lia.
    apply IZR_le in H1, H2.
    unfold Pid.ival_min, Pid.ival_max, Pid.ival_increment. lra.
  - apply performed_one. reflexivity.
  - reflexivity.
Qed.

(** X2.  A write of the integrator value that succeeds makes exactly one bus
    write, to register 0x100, of a word between 0 and 2^16 - 1; every other
    register keeps its content. *)
Theorem ival_set_value_effect (m : rounding) (v : R) (b : bus) :
  outcome (IValAttribute.set_value m v) b = Ok tt ->
  exists w : Z,
    (0 <= w < 2 ^ 16)%Z /\
    performed (IValAttribute.set_value m v) b = [BusWrite 0x100 w] /\
    regs (after (IValAttribute.set_value m v) b) 0x100 = w /\
    forall a : Z, a <> 0x100%Z ->
      regs (after (IValAttribute.set_value m v) b) a = regs b a.
Proof.
  intros Hok. pose proof (ival_set_value_ok m v b Hok) as Hf.
  exists (Z.land (py_round m (v * 2 ^ 13)) (Z.ones 16)).
  split.
  - rewrite Z.land_ones by lia. apply Z.mod_pos_bound. lia.
  - split; [| split].
    + apply performed_one. unfold after. rewrite ival_set_value_run.
      cbn zeta. rewrite Hf. reflexivity.
    + unfold after. rewrite ival_set_value_run. cbn zeta. rewrite Hf.
      reflexivity.
    + intros a Ha. unfold after. rewrite ival_set_value_run. cbn zeta.
      rewrite Hf. cbn [snd regs].
      destruct (Z.eqb_spec a 0x100); [contradiction | reflexivity].
Qed.

Lemma ival_set_value_effect_witness :
  exists w : Z,
    (0 <= w < 2 ^ 16)%Z /\
    performed (IValAttribute.set_value HalfEven (-1)) (mkBus (fun _ => 0%Z) [])
    = [BusWrite 0x100 w] /\
    regs (after (IValAttribute.set_value HalfEven (-1)) (mkBus (fun _ => 0%Z) []))
      0x100 = w /\
    forall a : Z, a <> 0x100%Z ->
      regs (after (IValAttribute.set_value HalfEven (-1))
              (mkBus (fun _ => 0%Z) [])) a = 0%Z.
Proof.
  apply (ival_set_value_effect HalfEven (-1) (mkBus (fun _ => 0%Z) [])).
  unfold outcome. rewrite ival_set_value_run. cbn zeta.
  replace (-1 * 2 ^ 13) with (IZR (-8192)) by (simpl; lra).
  rewrite py_round_IZR. reflexivity.
Defined.

(** Scaling a grid value gives back its integer. *)
Lemma ival_grid_raw (m : rounding) (k : Z) :
  py_round m (IZR k / 2 ^ 13 * 2 ^ 13) = k.
Proof.
  replace (IZR k / 2 ^ 13 * 2 ^ 13) with (IZR k) by (field; lra).
  apply py_round_IZR.
Qed.

(** X3.  A value on the register's grid, [k / 2^13] with [k] in the 16-bit
    signed range, is written and read back exactly. *)
Theorem ival_grid_exact (m : rounding) (k : Z) (b : bus) :
  (- 2 ^ 15 <= k < 2 ^ 15)%Z ->
  outcome (IValAttribute.set_value m (IZR k / 2 ^ 13) ;;;
           IValAttribute.get_value) b
  = Ok (IZR k / 2 ^ 13).
Proof.
  intros Hk. rewrite ival_sequence, ival_grid_raw.
  replace (fits 16 k) with true; [reflexivity |].
  symmetry. apply fits_spec. exact Hk.
Qed.

Lemma ival_grid_exact_witness :
  outcome (IValAttribute.set_value HalfAway (IZR (-32768) / 2 ^ 13) ;;;
           IValAttribute.get_value) bus_p1
  = Ok (IZR (-32768) / 2 ^ 13).
Proof.
  apply (ival_grid_exact HalfAway (-32768) bus_p1). lia.
Defined.

(** X4.  Writing back the value just read always succeeds and is read back
    unchanged, whatever the register held. *)
Theorem ival_get_set_get (m : rounding) (b : bus) :
  exists r : R,
    outcome IValAttribute.get_value b = Ok r /\
    outcome (IValAttribute.set_value m r) b = Ok tt /\
    outcome IValAttribute.get_value (after (IValAttribute.set_value m r) b)
    = Ok r.
Proof.
  set (k := _to_pyint (regs b 0x100) 16).
  pose proof (to_pyint_range 16 (regs b 0x100) ltac:(lia)) as Hf. fold k in Hf.
  exists (IZR k / 2 ^ 13).
  pose proof (ival_grid_raw m k) as Hr.
  split; [reflexivity | split].
  - unfold outcome. rewrite ival_set_value_run. cbn zeta.
    rewrite Hr, Hf. reflexivity.
  - rewrite ival_get_after_set; rewrite Hr; [reflexivity | assumption].
Qed.

(** X5.  Quantization is monotone: of two values that are both written
    successfully, the larger never reads back smaller. *)
Theorem ival_monotone (m : rounding) (v1 v2 r1 r2 : R) (b1 b2 : bus) :
  v1 <= v2 ->
  outcome (IValAttribute.set_value m v1 ;;; IValAttribute.get_value) b1 = Ok r1 ->
  outcome (IValAttribute.set_value m v2 ;;; IValAttribute.get_value) b2 = Ok r2 ->
  r1 <= r2.
Proof.
  intros Hv. rewrite !ival_sequence.
  destruct (fits 16 (py_round m (v1 * 2 ^ 13))); [| discriminate].
  destruct (fits 16 (py_round m (v2 * 2 ^ 13))); [| discriminate].
  intros H1 H2. injection H1 as <-. injection H2 as <-.
  assert (Hm : (py_round m (v1 * 2 ^ 13) <= py_round m (v2 * 2 ^ 13))%Z).
  { apply py_round_monotone. lra. }
  apply IZR_le in Hm. unfold Rdiv.
  apply Rmult_le_compat_r; [| assumption].
  apply Rlt_le. apply Rinv_0_lt_compat. lra.
Qed.

Lemma ival_monotone_witness :
  IZR 0 / 2 ^ 13 <= IZR 8192 / 2 ^ 13.
Proof.
  apply (ival_monotone HalfEven (IZR 0 / 2 ^ 13) (IZR 8192 / 2 ^ 13)
           (IZR 0 / 2 ^ 13) (IZR 8192 / 2 ^ 13) bus_p1 bus_p1).
  - lra.
  - rewrite ival_sequence, ival_grid_raw. reflexivity.
  - rewrite ival_sequence, ival_grid_raw. reflexivity.
Defined.

(** ** The declared registers *)

Lemma get_outcome (d : FloatRegister) (b : bus) :
  outcome (RegisterParameter.get d) b = Ok (gain d b).
Proof. reflexivity. Qed.

(** A [set], successful or not, leaves the registers at other addresses
    alone. *)
Lemma set_regs_other (m : rounding) (d : FloatRegister) (v : R) (s : bus)
  (x : Z) :
  x <> address d -> regs (after (RegisterParameter.set m d v) s) x = regs s x.
Proof.
  intros Hx. unfold after, RegisterParameter.set.
  destruct (_ && _); [| reflexivity].
  unfold bind, lift.
  destruct (FixedPointCodec.encode m d v) as [raw | e]; [| reflexivity].
  destruct (_from_pyint raw (bits d)) as [w | e]; [| reflexivity].
  unfold _write. cbn [snd regs].
  destruct (Z.eqb_spec x (address d)); [contradiction | reflexivity].
Qed.

Lemma ival_set_regs_other (m : rounding) (v : R) (s : bus) (x : Z) :
  x <> 0x100%Z -> regs (after (IValAttribute.set_value m v) s) x = regs s x.
Proof.
  intros Hx. unfold after. rewrite ival_set_value_run. cbn zeta.
  destruct (fits 16 _); [| reflexivity].
  cbn [snd regs]. destruct (Z.eqb_spec x 0x100); [contradiction | reflexivity].
Qed.

Lemma primary_addresses :
  map address primary_registers
  = [0x104; 0x124; 0x128; 0x108; 0x10C; 0x110]%Z.
Proof. reflexivity. Qed.

Lemma primary_address_inj (a b : FloatRegister) :
  In a primary_registers -> In b primary_registers ->
  address a = address b -> a = b.
Proof.
  unfold primary_registers. cbn [In].
  intros Ha Hb.
  repeat (destruct Ha as [<- | Ha]; [| try contradiction]);
    repeat (destruct Hb as [<- | Hb]; [| try contradiction]);
    cbn [address Pid.setpoint Pid.min_voltage Pid.max_voltage Pid.p Pid.i Pid.d];
    intros H; try reflexivity; discriminate H.
Qed.

(** X6.  The primary parameters do not interfere.  The integrator value
    (0x100) and the six registers [setpoint], [min_voltage], [max_voltage],
    [p], [i], [d] sit at pairwise distinct addresses; a [set] of one of the
    six, successful or not, leaves the value read from any other of them
    unchanged, and so does a write of the integrator value. *)
Theorem primary_registers_independent :
  NoDup (0x100%Z :: map address primary_registers) /\
  (forall (a b : FloatRegister) (m : rounding) (v : R) (s : bus),
      In a primary_registers -> In b primary_registers -> a <> b ->
      outcome (RegisterParameter.get b) (after (RegisterParameter.set m a v) s)
      = outcome (RegisterParameter.get b) s) /\
  (forall (b : FloatRegister) (m : rounding) (v : R) (s : bus),
      In b primary_registers ->
      outcome (RegisterParameter.get b) (after (IValAttribute.set_value m v) s)
      = outcome (RegisterParameter.get b) s).
Proof.
  split; [| split].
  - rewrite primary_addresses.
    repeat (constructor; [cbn [In]; intros H;
                          repeat (destruct H as [H | H]; [discriminate H |]);
                          exact H |]).
    constructor.
  - intros a b m v s Ha Hb Hab.
    rewrite !get_outcome. unfold gain.
    rewrite set_regs_other; [reflexivity |].
    intros Heq. apply Hab. symmetry.
    apply primary_address_inj; assumption.
  - intros b m v s Hb.
    rewrite !get_outcome. unfold gain.
    rewrite ival_set_regs_other; [reflexivity |].
    unfold primary_registers in Hb. cbn [In] in Hb.
    repeat (destruct Hb as [<- | Hb]; [discriminate |]). contradiction.
Qed.

Lemma primary_registers_independent_witness :
  outcome (RegisterParameter.get Pid.p)
    (after (RegisterParameter.set HalfEven Pid.i 1) bus_p1)
  = outcome (RegisterParameter.get Pid.p) bus_p1.
Proof.
  apply (proj1 (proj2 primary_registers_independent)).
  - unfold primary_registers. cbn [In]. do 4 right. left. reflexivity.
  - unfold primary_registers. cbn [In]. do 3 right. left. reflexivity.
  - intros H. apply (f_equal address) in H. discriminate H.
Defined.

Lemma declared_positive (d : FloatRegister) :
  In d declared_registers -> (0 < bits d)%Z /\ 0 < norm d /\ unbounded d.
Proof.
  pose proof PI_RGT_0 as Hpi. pose proof T8ns_pos as Ht.
  assert (Hpt : 0 < 2 * PI * Pid.T8ns).
  { apply Rmult_lt_0_compat; [lra | assumption]. }
  assert (Hi : 0 < 2 ^ Pid._ISR * 2 * PI * Pid.T8ns).
  { replace (2 ^ Pid._ISR * 2 * PI * Pid.T8ns)
      with (2 ^ Pid._ISR * (2 * PI * Pid.T8ns)) by ring.
    apply Rmult_lt_0_compat; [apply pow_lt; lra | assumption]. }
  unfold declared_registers, primary_registers. cbn [app In].
  intros H.
  repeat (destruct H as [<- | H]; [split; [reflexivity | split; [| split; reflexivity]] |]);
    try contradiction;
    cbn [norm Pid.setpoint Pid.min_voltage Pid.max_voltage Pid.p Pid.i Pid.d
           Pid.normalization_i Pid.normalization_inputoffset];
    try (apply pow_lt; lra).
  - exact Hi.
  - apply Rdiv_lt_0_compat; [apply pow_lt; lra | assumption].
  - apply Rdiv_lt_0_compat; [| lra].
    apply Rdiv_lt_0_compat; [assumption | apply pow_lt; lra].
Qed.

(** X7.  Round trip through the bus for every declared register.  Each of the
    eight register descriptors of the class has a positive width and a
    positive normalization; a representable value that is set and then read
    through the same descriptor comes back within one least significant bit,
    [1 / norm]. *)
Theorem declared_register_roundtrip (d : FloatRegister) (m : rounding) (v : R)
  (s : bus) :
  In d declared_registers -> representable d v ->
  exists r : R,
    outcome (RegisterParameter.set m d v ;;; RegisterParameter.get d) s = Ok r /\
    Rabs (r - v) <= 1 / norm d.
Proof.
  intros Hd Hr.
  destruct (declared_positive d Hd) as (Hw & Hn & Hu).
  pose proof (set_unbounded m d v s Hu Hr) as Hok.
  destruct (get_after_set m d d v s eq_refl eq_refl Hw Hok) as (raw & He & Hget).
  exists (FixedPointCodec.decode d raw). split.
  - rewrite <- Hget. unfold outcome, after, bind in *.
    destruct (RegisterParameter.set m d v s) as [[[] | e] s']; cbn [fst snd] in *;
      [reflexivity | discriminate].
  - destruct (encode_fits m d v raw He) as [-> _].
    apply decode_error; [assumption | apply py_round_error].
Qed.

Lemma declared_register_roundtrip_witness :
  exists r : R,
    outcome (RegisterParameter.set HalfEven Pid.d 0 ;;;
             RegisterParameter.get Pid.d) bus_p1 = Ok r /\
    Rabs (r - 0) <= 1 / norm Pid.d.
Proof.
  apply (declared_register_roundtrip Pid.d HalfEven 0 bus_p1).
  - unfold declared_registers, primary_registers. cbn [app In].
    do 5 right. left. reflexivity.
  - unfold representable, signed_value. simpl. lra.
Defined.

(** Whatever a register holds, the value read from it is representable. *)
Lemma gain_representable (d : FloatRegister) (b : bus) :
  (0 < bits d)%Z -> 0 < norm d -> representable d (gain d b).
Proof.
  intros Hw Hn. unfold representable, gain, signed_value, FixedPointCodec.decode.
  set (raw := _to_pyint (regs b (address d)) (bits d)).
  pose proof (to_pyint_range (bits d) (regs b (address d)) Hw) as Hf.
  fold raw in Hf. apply fits_spec in Hf.
  assert (Hv : (if invert d then - (IZR (- raw) / norm d) else IZR raw / norm d)
               * norm d = IZR raw).
  { destruct (invert d); [rewrite opp_IZR |]; field; lra. }
  destruct (invert d) eqn:Hinv; rewrite Hv; split; apply IZR_le; lia.
Qed.

(** X8.  Ranges of the values read.  Every declared register reads a
    representable value.  In particular [setpoint], [min_voltage] and
    [max_voltage] read between -1 V and [1 - 2^-13] V, and [p] reads between
    -2048 and [2048 - 2^-12]. *)
Theorem declared_register_range (b : bus) :
  (forall d : FloatRegister, In d declared_registers ->
     exists r, outcome (RegisterParameter.get d) b = Ok r /\ representable d r) /\
  (forall d : FloatRegister,
     In d [Pid.setpoint; Pid.min_voltage; Pid.max_voltage] ->
     exists r, outcome (RegisterParameter.get d) b = Ok r /\
               -1 <= r <= 1 - / 2 ^ 13) /\
  (exists r, outcome (RegisterParameter.get Pid.p) b = Ok r /\
             -2048 <= r <= 2048 - / 2 ^ 12).
Proof.
  split; [| split].
  - intros d Hd. destruct (declared_positive d Hd) as (Hw & Hn & _).
    exists (gain d b). split; [reflexivity |].
    apply gain_representable; assumption.
  - intros d Hd. exists (gain d b). split; [reflexivity |].
    assert (Hr : representable d (gain d b)).
    { apply gain_representable; cbn [In] in Hd;
        repeat (destruct Hd as [<- | Hd]; [first [reflexivity | simpl; lra] |]);
        contradiction. }
    cbn [In] in Hd.
    repeat (destruct Hd as [<- | Hd];
            [unfold representable, signed_value in Hr; simpl in Hr; lra |]).
    contradiction.
  - exists (gain Pid.p b). split; [reflexivity |].
    assert (Hr : representable Pid.p (gain Pid.p b)).
    { apply gain_representable; [reflexivity | simpl; lra]. }
    unfold representable, signed_value in Hr. simpl in Hr. lra.
Qed.

Lemma declared_register_range_witness :
  exists r, outcome (RegisterParameter.get Pid.max_voltage) bus_p1 = Ok r /\
            -1 <= r <= 1 - / 2 ^ 13.
Proof.
  apply (proj1 (proj2 (declared_register_range bus_p1)) Pid.max_voltage).
  cbn [In]. do 2 right. left. reflexivity.
Defined.

(** X9.  Aliased readings are proportional.  On every bus the value read as
    [normalization_i] is 12800 times the value read as [i], and the value
    read as [d] is [- 2^13 * 2 pi * 8 ns] times the value read as
    [normalization_inputoffset]. *)
Theorem aliased_readings_scale (b : bus) :
  exists ri rn rd ro : R,
    outcome (RegisterParameter.get Pid.i) b = Ok ri /\
    outcome (RegisterParameter.get Pid.normalization_i) b = Ok rn /\
    outcome (RegisterParameter.get Pid.d) b = Ok rd /\
    outcome (RegisterParameter.get Pid.normalization_inputoffset) b = Ok ro /\
    rn = 12800 * ri /\
    rd = - (2 ^ 13 * (2 * PI * (8 / 10 ^ 9))) * ro.
Proof.
  exists (gain Pid.i b), (gain Pid.normalization_i b), (gain Pid.d b),
         (gain Pid.normalization_inputoffset b).
  repeat (split; [reflexivity |]).
  pose proof PI_RGT_0 as Hpi.
  unfold gain, FixedPointCodec.decode.
  cbn [address bits norm invert Pid.i Pid.d Pid.normalization_i
         Pid.normalization_inputoffset].
  change (14 + Z.of_nat Pid._DSR)%Z with Pid._GAINBITS.
  unfold Pid.T8ns, Pid._ISR, Pid._DSR.
  rewrite opp_IZR.
  generalize (IZR (_to_pyint (regs b 272) Pid._GAINBITS)).
  generalize (IZR (_to_pyint (regs b 268) Pid._GAINBITS)).
  intros x y. change (13 + 10)%nat with 23%nat.
  split; field; lra.
Qed.

(** X10.  [normalization_gain] never fails, makes one bus read, of the
    proportional gain register 0x108, writes nothing, and returns half the
    proportional gain: a value between -1024 and [1024 - 2^-13]. *)
Theorem normalization_gain_range (b : bus) :
  exists r : R,
    outcome normalization_gain b = Ok r /\
    outcome (RegisterParameter.get Pid.p) b = Ok (2 * r) /\
    -1024 <= r <= 1024 - / 2 ^ 13 /\
    performed normalization_gain b = [BusRead 0x108] /\
    regs (after normalization_gain b) = regs b.
Proof.
  exists (gain Pid.p b / 2).
  assert (Hr : representable Pid.p (gain Pid.p b)).
  { apply gain_representable; [reflexivity | simpl; lra]. }
  unfold representable, signed_value in Hr. simpl in Hr.
  split; [reflexivity | split; [| split; [lra | split]]].
  - rewrite get_outcome. f_equal. field.
  - apply performed_one. reflexivity.
  - reflexivity.
Qed.

(** ** The transfer function at nonzero frequencies *)

Lemma filter_sample_finite (f : R) (z : Cx.C) (coeff : R) :
  f <> 0 ->
  filter_sample (of_float f) (cfin z) coeff = cfin (stage_closed f z coeff).
Proof.
  intros Hf. unfold filter_sample, stage_closed.
  coefficient_cases coeff; try reflexivity.
  - apply stage_sample. assumption.
  - apply stage_sample. assumption.
  - lra.
Qed.

Lemma filter_fold_finite (f : R) (filters : list R) :
  f <> 0 -> forall z : Cx.C,
  fold_left (filter_sample (of_float f)) filters (cfin z)
  = cfin (fold_left (stage_closed f) filters z).
Proof.
  intros Hf. induction filters as [| coeff filters IH]; intros z;
    cbn [fold_left]; [reflexivity |].
  rewrite filter_sample_finite by assumption. apply IH.
Qed.

Lemma branch_sample_finite (gain_p gain_i c : R) (filters : list R) (f : R) :
  f <> 0 ->
  branch_sample gain_p gain_i c filters (of_float f)
  = cfin (branch_closed gain_p gain_i c filters f).
Proof.
  intros Hf. unfold branch_sample, branch_closed.
  rewrite integral_sample_finite by assumption.
  rewrite (of_float_cfin gain_p), cadd_cfin.
  apply filter_fold_finite. assumption.
Qed.

Lemma tf_sample_finite (gain_p gain_i c : R) (filters : list R) (delay f : R) :
  f <> 0 ->
  tf_sample gain_p gain_i c filters delay (of_float f)
  = cfin (tf_closed gain_p gain_i c filters delay f).
Proof.
  intros Hf. unfold tf_sample, tf_closed.
  rewrite branch_sample_finite by assumption.
  rewrite delay_sample_finite, cmul_cfin. reflexivity.
Qed.

(** The outcome of a call, for every correction factor. *)
Lemma transfer_function_cases (s : Pid.self) (fs : list R) (extradelay : R)
  (b : bus) :
  outcome (Pid.transfer_function s fs extradelay) b
  = if Req_dec_T (Pid._frequency_correction s) 0
    then Raise ZeroDivisionError
    else Ok (map (fun f => tf_sample (gain Pid.p b) (gain Pid.i b)
                     (Pid._frequency_correction s) (Pid.inputfilter s)
                     (total_delay s extradelay) (of_float f)) fs).
Proof.
  destruct (Req_dec_T _ 0) as [Hc | Hc].
  - apply transfer_function_zero_correction. assumption.
  - apply transfer_function_outcome. assumption.
Qed.

(** X11.  Closed form.  With a nonzero correction factor and nonzero
    frequencies the call returns finite samples, and the sample at frequency
    [f] is [(i / (j f) * exp(-j 2 pi f T c) + p)], divided in turn by
    [1 + j f / coeff] for each positive and by [1 + j coeff / f] for each
    negative filter coefficient, times [exp(-j 2 pi f delay)], where [p] and
    [i] are the gains held by the bus and [delay] is
    [(3 + extra_delay_cycles) * 8 ns / c + extradelay]. *)
Theorem transfer_function_closed_form (s : Pid.self) (fs : list R)
  (extradelay : R) (b : bus) :
  Pid._frequency_correction s <> 0 ->
  Forall (fun f => f <> 0) fs ->
  outcome (Pid.transfer_function s fs extradelay) b
  = Ok (map (fun f =>
               cfin (tf_closed (gain Pid.p b) (gain Pid.i b)
                       (Pid._frequency_correction s) (Pid.inputfilter s)
                       (IZR (3 + extra_delay_cycles (Pid.inputfilter s))
                        * (8 / 10 ^ 9) / Pid._frequency_correction s
                        + extradelay) f)) fs).
Proof.
  intros Hc Hfs. rewrite transfer_function_outcome by assumption.
  f_equal. apply map_ext_in. intros f Hin.
  rewrite Forall_forall in Hfs.
  apply tf_sample_finite. apply Hfs. assumption.
Qed.

Lemma transfer_function_closed_form_witness :
  outcome (Pid.transfer_function (Pid.mkSelf [1000; -10] 1) [1; 100] 0) bus_i1
  = Ok (map (fun f =>
               cfin (tf_closed (gain Pid.p bus_i1) (gain Pid.i bus_i1)
                       1 [1000; -10]
                       (IZR (3 + extra_delay_cycles [1000; -10])
                        * (8 / 10 ^ 9) / 1 + 0) f)) [1; 100]).
Proof.
  apply (transfer_function_closed_form (Pid.mkSelf [1000; -10] 1) [1; 100] 0
           bus_i1).
  - cbn. lra.
  - repeat constructor; lra.
Defined.



(** X13.  Shape and element-wise evaluation.  The result has one sample per
    frequency, and the result for two frequency arrays laid end to end is the
    two results laid end to end: each sample depends on its own frequency
    only. *)
Theorem transfer_function_elementwise (s : Pid.self) (fs1 fs2 : list R)
  (extradelay : R) (b : bus) :
  Pid._frequency_correction s <> 0 ->
  exists out1 out2,
    outcome (Pid.transfer_function s fs1 extradelay) b = Ok out1 /\
    outcome (Pid.transfer_function s fs2 extradelay) b = Ok out2 /\
    outcome (Pid.transfer_function s (fs1 ++ fs2) extradelay) b
    = Ok (out1 ++ out2) /\
    length out1 = length fs1 /\ length out2 = length fs2.
Proof.
  intros Hc. rewrite !transfer_function_outcome by assumption.
  eexists. eexists.
  split; [reflexivity | split; [reflexivity | split]].
  - rewrite map_app. reflexivity.
  - rewrite !length_map. split; reflexivity.
Qed.

Lemma transfer_function_elementwise_witness :
  exists out1 out2,
    outcome (Pid.transfer_function (Pid.mkSelf [] 1) [1] 0) bus_p1 = Ok out1 /\
    outcome (Pid.transfer_function (Pid.mkSelf [] 1) [] 0) bus_p1 = Ok out2 /\
    outcome (Pid.transfer_function (Pid.mkSelf [] 1) ([1] ++ []) 0) bus_p1
    = Ok (out1 ++ out2) /\
    length out1 = length [1] /\ length out2 = length (@nil R).
Proof.
  apply (transfer_function_elementwise (Pid.mkSelf [] 1) [1] [] 0 bus_p1).
  cbn. lra.
Defined.

Lemma filter_sample_disabled (w z : complex128) (filters : list R) :
  fold_left (filter_sample w) (filter enabled filters) z
  = fold_left (filter_sample w) filters z.
Proof.
  revert z. induction filters as [| coeff filters IH]; intros z;
    cbn [filter fold_left]; [reflexivity |].
  unfold enabled at 1, filter_sample at 3.
  destruct (Req_dec_T coeff 0) as [Hz | Hz].
  - apply IH.
  - cbn [fold_left]. rewrite IH. unfold filter_sample at 2.
    destruct (Req_dec_T coeff 0); [contradiction | reflexivity].
Qed.

Lemma extra_delay_cycles_disabled (filters : list R) :
  extra_delay_cycles (filter enabled filters) = extra_delay_cycles filters.
Proof.
  induction filters as [| coeff filters IH]; cbn [filter extra_delay_cycles];
    [reflexivity |].
  unfold enabled at 1.
  destruct (Req_dec_T coeff 0) as [-> | Hz].
  - rewrite IH.
    destruct (Rlt_dec 0 0); [lra |]. reflexivity.
  - cbn [extra_delay_cycles]. rewrite IH. reflexivity.
Qed.

(** X14.  Zero is a bypass.  Filter slots holding 0 have no effect on the
    result: dropping them from the filter list gives the same outcome, for
    every frequency array, delay, bus and correction factor. *)
Theorem zero_coefficients_bypassed (filters : list R) (c : R) (fs : list R)
  (extradelay : R) (b : bus) :
  outcome (Pid.transfer_function (Pid.mkSelf (filter enabled filters) c)
             fs extradelay) b
  = outcome (Pid.transfer_function (Pid.mkSelf filters c) fs extradelay) b.
Proof.
  rewrite !transfer_function_cases.
  cbn [Pid._frequency_correction Pid.inputfilter].
  destruct (Req_dec_T c 0); [reflexivity |].
  f_equal. apply map_ext. intros f.
  unfold tf_sample, branch_sample, total_delay.
  cbn [Pid._frequency_correction Pid.inputfilter].
  rewrite filter_sample_disabled, extra_delay_cycles_disabled. reflexivity.
Qed.

(** ** Magnitudes and the external delay *)

Lemma Cx_norm2_mul (a b : Cx.C) :
  Cx.norm2 (Cx.mul a b) = Cx.norm2 a * Cx.norm2 b.
Proof. unfold Cx.norm2, Cx.mul. cbn [fst snd]. ring. Qed.


Lemma Cx_norm2_polar_1 (phi : R) : Cx.norm2 (Cx.polar 1 phi) = 1.
Proof.
  unfold Cx.norm2, Cx.polar. cbn [fst snd].
  pose proof (sin2_cos2 phi) as H. unfold Rsqr in H. lra.
Qed.



(** A phase factor does not change the magnitude. *)
Lemma modulus_phase (a : Cx.C) (x : R) :
  Cx.modulus (Cx.mul a (Cx.exp (Cx.mul (Cx.opp Cx.J) (Cx.of_R x))))
  = Cx.modulus a.
Proof.
  unfold Cx.modulus. rewrite Cx_norm2_mul, exp_neg_j, Cx_norm2_polar_1.
  rewrite Rmult_1_r. reflexivity.
Qed.

Lemma transfer_function_finite (s : Pid.self) (fs : list R) (extradelay : R)
  (b : bus) :
  Pid._frequency_correction s <> 0 ->
  Forall (fun f => f <> 0) fs ->
  outcome (Pid.transfer_function s fs extradelay) b
  = Ok (map cfin
          (map (tf_closed (gain Pid.p b) (gain Pid.i b)
                  (Pid._frequency_correction s) (Pid.inputfilter s)
                  (total_delay s extradelay)) fs)).
Proof.
  intros Hc Hfs. rewrite transfer_function_outcome by assumption.
  f_equal. rewrite map_map. apply map_ext_in. intros f Hin.
  rewrite Forall_forall in Hfs.
  apply tf_sample_finite. apply Hfs. assumption.
Qed.



(** X16.  Delays change phases only.  At nonzero frequencies the magnitude of
    each sample is the magnitude of the branch response (integral plus
    proportional branch through the filter stages); it does not depend on the
    external delay nor on the pipeline delay. *)
Theorem magnitude_independent_of_delay (s : Pid.self) (fs : list R)
  (extradelay : R) (b : bus) :
  Pid._frequency_correction s <> 0 ->
  Forall (fun f => f <> 0) fs ->
  exists zs : list Cx.C,
    outcome (Pid.transfer_function s fs extradelay) b = Ok (map cfin zs) /\
    map Cx.modulus zs
    = map (fun f =>
             Cx.modulus (branch_closed (gain Pid.p b) (gain Pid.i b)
                           (Pid._frequency_correction s) (Pid.inputfilter s) f))
          fs.
Proof.
  intros Hc Hfs. eexists. split.
  - apply transfer_function_finite; assumption.
  - rewrite map_map. apply map_ext. intros f.
    unfold tf_closed. apply modulus_phase.
Qed.

Lemma magnitude_independent_of_delay_witness :
  exists zs : list Cx.C,
    outcome (Pid.transfer_function (Pid.mkSelf [100] 1) [50] 7) bus_p1
    = Ok (map cfin zs) /\
    map Cx.modulus zs
    = map (fun f =>
             Cx.modulus (branch_closed (gain Pid.p bus_p1) (gain Pid.i bus_p1)
                           1 [100] f)) [50].
Proof.
  apply (magnitude_independent_of_delay (Pid.mkSelf [100] 1) [50] 7 bus_p1).
  - cbn. lra.
  - repeat constructor; lra.
Defined.

Lemma stage_closed_bypass (f : R) (filters : list R) :
  Forall (fun coeff => coeff = 0) filters ->
  forall z : Cx.C, fold_left (stage_closed f) filters z = z.
Proof.
  induction 1 as [| coeff filters Hz _ IH]; intros z; cbn [fold_left];
    [reflexivity |].
  unfold stage_closed at 2.
  destruct (Req_dec_T coeff 0); [apply IH | contradiction].
Qed.

Lemma integral_modulus (gain_i c f : R) :
  f <> 0 -> Cx.modulus (integral_closed gain_i c f) = Rabs gain_i / Rabs f.
Proof.
  intros Hf. unfold integral_closed. rewrite modulus_phase.
  rewrite div_by_j by assumption.
  unfold Cx.modulus, Cx.norm2. cbn [fst snd].
  replace (0 * 0 + - (gain_i / f) * - (gain_i / f)) with (Rsqr (gain_i / f))
    by (unfold Rsqr; ring).
  rewrite sqrt_Rsqr_abs. unfold Rdiv.
  rewrite Rabs_mult, Rabs_inv. reflexivity.
Qed.

(** X17.  Unity-gain frequency.  With a proportional gain of zero and every
    filter slot bypassed, the magnitude of the sample at a nonzero frequency
    [f] is [|i| / |f|]: it is 1 where [|f|] equals [|i|], the frequency that
    the integral gain states. *)
Theorem integrator_magnitude (s : Pid.self) (fs : list R) (extradelay : R)
  (b : bus) :
  Pid._frequency_correction s <> 0 ->
  Forall (fun f => f <> 0) fs ->
  gain Pid.p b = 0 ->
  Forall (fun coeff => coeff = 0) (Pid.inputfilter s) ->
  exists zs : list Cx.C,
    outcome (Pid.transfer_function s fs extradelay) b = Ok (map cfin zs) /\
    map Cx.modulus zs = map (fun f => Rabs (gain Pid.i b) / Rabs f) fs.
Proof.
  intros Hc Hfs Hp Hflt. eexists. split.
  - apply transfer_function_finite; assumption.
  - rewrite map_map. apply map_ext_in. intros f Hin.
    rewrite Forall_forall in Hfs. pose proof (Hfs f Hin) as Hf.
    unfold tf_closed. rewrite modulus_phase.
    unfold branch_closed. rewrite stage_closed_bypass by assumption.
    rewrite Hp.
    replace (Cx.add (integral_closed (gain Pid.i b)
                       (Pid._frequency_correction s) f) (Cx.of_R 0))
      with (integral_closed (gain Pid.i b) (Pid._frequency_correction s) f)
      by (apply Cx_eq_parts; unfold Cx.add, Cx.of_R; cbn [fst snd]; ring).
    apply integral_modulus. assumption.
Qed.

Lemma integrator_magnitude_witness :
  exists zs : list Cx.C,
    outcome (Pid.transfer_function (Pid.mkSelf [0; 0; 0; 0] 1) [1; 10] 0) bus_i1
    = Ok (map cfin zs) /\
    map Cx.modulus zs = map (fun f => Rabs (gain Pid.i bus_i1) / Rabs f) [1; 10].
Proof.
  apply (integrator_magnitude (Pid.mkSelf [0; 0; 0; 0] 1) [1; 10] 0 bus_i1).
  - cbn. lra.
  - repeat constructor; lra.
  - unfold gain, FixedPointCodec.decode.
    replace (_to_pyint _ _) with 0%Z by (vm_compute; reflexivity).
    simpl. lra.
  - repeat constructor.
Defined.

(** ** The filter stages as a whole *)













Lemma extra_delay_cycles_bounds (filters : list R) :
  (Z.of_nat (length (filter enabled filters)) <= extra_delay_cycles filters
   <= 2 * Z.of_nat (length filters))%Z.
Proof.
  induction filters as [| coeff filters IH];
    cbn [filter length extra_delay_cycles]; [lia |].
  unfold enabled at 1.
  destruct (Req_dec_T coeff 0) as [-> | Hz].
  - destruct (Rlt_dec 0 0); [lra |]. lia.
  - cbn [length].
    destruct (Rlt_dec 0 coeff); [lia |].
    destruct (Rlt_dec coeff 0); [lia | lra].
Qed.

(** X20.  Bounds on the pipeline delay.  After the filter loop the delay
    counter is at least the start value plus one cycle per nonzero
    coefficient and at most the start value plus two cycles per slot; with
    four slots and the start value [_delay = 3] it stays between 3 and 11
    cycles. *)
Theorem module_delay_bounds (ws tf : ndarray) (filters : list R) (dl : Z) :
  let cycles := snd (fold_left (Pid.filter_step ws) filters (tf, dl)) in
  (dl + Z.of_nat (length (filter enabled filters)) <= cycles
   <= dl + 2 * Z.of_nat (length filters))%Z /\
  (length filters = 4%nat -> dl = Pid._delay -> (3 <= cycles <= 11)%Z).
Proof.
  cbn zeta. rewrite filter_fold_delay.
  pose proof (extra_delay_cycles_bounds filters) as Hb.
  split; [lia |].
  intros Hlen ->. rewrite Hlen in Hb. unfold Pid._delay. lia.
Qed.

Lemma module_delay_bounds_witness :
  let cycles :=
    snd (fold_left (Pid.filter_step (np_array [1])) [1000; 0; -5; 0]
           ([], Pid._delay)) in
  (3 <= cycles <= 11)%Z.
Proof.
  apply (proj2 (module_delay_bounds (np_array [1]) [] [1000; 0; -5; 0] Pid._delay));
    reflexivity.
Defined.

(** ** Negative frequencies *)

Lemma Cx_conj_mul (a b : Cx.C) :
  Cx_conj (Cx.mul a b) = Cx.mul (Cx_conj a) (Cx_conj b).
Proof. apply Cx_eq_parts; unfold Cx_conj, Cx.mul; cbn [fst snd]; ring. Qed.

Lemma Cx_conj_div (a b : Cx.C) :
  Cx_conj (Cx.div a b) = Cx.div (Cx_conj a) (Cx_conj b).
Proof.
  assert (Hn : Cx.norm2 (Cx_conj b) = Cx.norm2 b).
  { unfold Cx.norm2, Cx_conj. cbn [fst snd]. ring. }
  apply Cx_eq_parts; unfold Cx.div; rewrite Hn;
    unfold Cx_conj; cbn [fst snd]; unfold Rdiv; ring.
Qed.

Lemma Cx_conj_add_real (a : Cx.C) (x : R) :
  Cx_conj (Cx.add a (Cx.of_R x)) = Cx.add (Cx_conj a) (Cx.of_R x).
Proof.
  apply Cx_eq_parts; unfold Cx_conj, Cx.add, Cx.of_R; cbn [fst snd]; ring.
Qed.

Lemma exp_neg_j_conj (x : R) :
  Cx.exp (Cx.mul (Cx.opp Cx.J) (Cx.of_R (- x)))
  = Cx_conj (Cx.exp (Cx.mul (Cx.opp Cx.J) (Cx.of_R x))).
Proof.
  rewrite !exp_neg_j, Ropp_involutive.
  apply Cx_eq_parts; unfold Cx_conj, Cx.polar; cbn [fst snd].
  - rewrite cos_neg. reflexivity.
  - rewrite sin_neg. ring.
Qed.

Lemma integral_closed_conj (gain_i c f : R) :
  f <> 0 ->
  integral_closed gain_i c (- f) = Cx_conj (integral_closed gain_i c f).
Proof.
  intros Hf. unfold integral_closed.
  rewrite Cx_conj_mul, <- exp_neg_j_conj.
  replace (2 * PI * - f * (Pid.T8ns * c))
    with (- (2 * PI * f * (Pid.T8ns * c))) by ring.
  f_equal.
  rewrite !div_by_j by lra.
  apply Cx_eq_parts; unfold Cx_conj; cbn [fst snd]; field; assumption.
Qed.

Lemma stage_closed_conj (f : R) (z : Cx.C) (coeff : R) :
  f <> 0 ->
  stage_closed (- f) (Cx_conj z) coeff = Cx_conj (stage_closed f z coeff).
Proof.
  intros Hf. unfold stage_closed.
  destruct (Req_dec_T coeff 0) as [Hc | Hc]; [reflexivity |].
  destruct (Rlt_dec 0 coeff).
  - rewrite Cx_conj_div. f_equal.
    rewrite !one_plus_j_value by assumption.
    apply Cx_eq_parts; unfold Cx_conj; cbn [fst snd]; field; assumption.
  - rewrite Cx_conj_div. f_equal.
    rewrite !one_plus_j_value by lra.
    apply Cx_eq_parts; unfold Cx_conj; cbn [fst snd]; field; assumption.
Qed.

Lemma stage_fold_conj (f : R) (filters : list R) :
  f <> 0 -> forall z : Cx.C,
  fold_left (stage_closed (- f)) filters (Cx_conj z)
  = Cx_conj (fold_left (stage_closed f) filters z).
Proof.
  intros Hf. induction filters as [| coeff filters IH]; intros z;
    cbn [fold_left]; [reflexivity |].
  rewrite stage_closed_conj by assumption. apply IH.
Qed.

Lemma tf_closed_conj (gain_p gain_i c : R) (filters : list R) (delay f : R) :
  f <> 0 ->
  tf_closed gain_p gain_i c filters delay (- f)
  = Cx_conj (tf_closed gain_p gain_i c filters delay f).
Proof.
  intros Hf. unfold tf_closed, branch_closed.
  rewrite Cx_conj_mul, <- exp_neg_j_conj.
  replace (2 * PI * - f * delay) with (- (2 * PI * f * delay)) by ring.
  f_equal.
  rewrite integral_closed_conj by assumption.
  rewrite <- Cx_conj_add_real. apply stage_fold_conj. assumption.
Qed.

(** X21.  Conjugate symmetry.  The result for the negated frequencies is the
    complex conjugate, sample by sample, of the result for the frequencies
    themselves (a NaN sample staying NaN). *)
Theorem conjugate_symmetry (s : Pid.self) (fs : list R) (extradelay : R)
  (b : bus) :
  Pid._frequency_correction s <> 0 ->
  exists out : ndarray,
    outcome (Pid.transfer_function s fs extradelay) b = Ok out /\
    outcome (Pid.transfer_function s (map Ropp fs) extradelay) b
    = Ok (map cconj out).
Proof.
  intros Hc. rewrite !transfer_function_outcome by assumption.
  eexists. split; [reflexivity |].
  rewrite !map_map. f_equal. apply map_ext. intros f.
  destruct (Req_dec_T f 0) as [-> | Hf].
  - rewrite Ropp_0, tf_sample_zero. reflexivity.
  - rewrite !tf_sample_finite by lra.
    rewrite tf_closed_conj by assumption. reflexivity.
Qed.

Lemma conjugate_symmetry_witness :
  exists out : ndarray,
    outcome (Pid.transfer_function (Pid.mkSelf [1000] 1) [0; 3] 0) bus_i1
    = Ok out /\
    outcome (Pid.transfer_function (Pid.mkSelf [1000] 1) (map Ropp [0; 3]) 0)
      bus_i1
    = Ok (map cconj out).
Proof.
  apply (conjugate_symmetry (Pid.mkSelf [1000] 1) [0; 3] 0 bus_i1).
  cbn. lra.
Defined.

(** ** Calls in sequence *)

Lemma transfer_function_depends_on_gains (s : Pid.self) (fs : list R)
  (extradelay : R) (b b' : bus) :
  regs b' 0x108 = regs b 0x108 -> regs b' 0x10C = regs b 0x10C ->
  outcome (Pid.transfer_function s fs extradelay) b'
  = outcome (Pid.transfer_function s fs extradelay) b.
Proof.
  intros Hp Hi. rewrite !transfer_function_cases.
  unfold gain. cbn [address Pid.p Pid.i]. rewrite Hp, Hi. reflexivity.
Qed.

(** X22.  A call does not disturb later calls: after any call of
    [transfer_function], raising or not, a further call and a read of the
    integrator value give the outcomes they would have given before it. *)
Theorem transfer_function_repeatable (s s' : Pid.self) (fs fs' : list R)
  (e e' : R) (b : bus) :
  outcome (Pid.transfer_function s fs e)
    (after (Pid.transfer_function s' fs' e') b)
  = outcome (Pid.transfer_function s fs e) b /\
  outcome IValAttribute.get_value (after (Pid.transfer_function s' fs' e') b)
  = outcome IValAttribute.get_value b.
Proof.
  rewrite transfer_function_bus. split.
  - apply transfer_function_depends_on_gains; reflexivity.
  - reflexivity.
Qed.

(** X23.  Only the two gains matter.  A write of the integrator value, or a
    [set] of [setpoint], [min_voltage], [max_voltage] or [d], successful or
    not, leaves the outcome of [transfer_function] unchanged. *)
Theorem transfer_function_ignores_other_writes (s : Pid.self) (fs : list R)
  (extradelay : R) (m : rounding) (v : R) (b : bus) :
  outcome (Pid.transfer_function s fs extradelay)
    (after (IValAttribute.set_value m v) b)
  = outcome (Pid.transfer_function s fs extradelay) b /\
  forall d : FloatRegister,
    In d [Pid.setpoint; Pid.min_voltage; Pid.max_voltage; Pid.d] ->
    outcome (Pid.transfer_function s fs extradelay)
      (after (RegisterParameter.set m d v) b)
    = outcome (Pid.transfer_function s fs extradelay) b.
Proof.
  split.
  - apply transfer_function_depends_on_gains;
      apply ival_set_regs_other; discriminate.
  - intros d Hd. cbn [In] in Hd.
    apply transfer_function_depends_on_gains; apply set_regs_other;
      repeat (destruct Hd as [<- | Hd]; [discriminate |]); contradiction.
Qed.

Lemma transfer_function_ignores_other_writes_witness :
  outcome (Pid.transfer_function (Pid.mkSelf [] 1) [1] 0)
    (after (RegisterParameter.set HalfEven Pid.d 0) bus_p1)
  = outcome (Pid.transfer_function (Pid.mkSelf [] 1) [1] 0) bus_p1.
Proof.
  apply (proj2 (transfer_function_ignores_other_writes (Pid.mkSelf [] 1) [1] 0
                  HalfEven 0 bus_p1) Pid.d).
  cbn [In]. do 3 right. left. reflexivity.
Defined.
